(** * V1brate: real-time pitch tracking and the scrolling note buffer

    A shallow embedding of the pitch pipeline of the V1brate front end, and
    the properties its design document states about it.

    Part I, the embedding, one module per source file:
    - [Js]                  the JavaScript operations on strings, arrays and
                            object literals the sources rely on
    - [Binary64]            JavaScript numbers: Math.round, Math.floor, %,
                            Math.min, Math.max, an array read by a number,
                            and the interface [Math] of Math.log, Math.log2
                            and Math.pow
    - [SeriesMath]          one [Math] object, computed by power series
    - [PitchDetector]       utils/pitchDetection.ts, class PitchDetector
    - [Types]               types/index.ts, the note name tables
    - [MusicUtils]          utils/musicUtils.ts (frequencyToNote,
                            noteToFrequency, getNoteDisplayName,
                            convertAccidental, transposeNote,
                            getStaffPosition, createPitchPoint,
                            smoothPitchData, centsToColor)
    - [MusicUtilsOverReals] frequencyToNote and noteToFrequency read over the
                            real numbers
    - [UsePitchDetection]   hooks/usePitchDetection.ts (frequencyToNote, stop)
    - [StaffAnalyzerWidget] components/widgets/StaffAnalyzerWidget.tsx
                            (getNoteLeft, the cleanup of the animation loop,
                            the note effect and the tick effect)
    - [PitchPoint], [PitchBuffer], [PitchDetectorLifecycle] and
      [MusicalStaff]: the pitch point type, the PitchBuffer class,
      initialize/startDetection/destroy of the PitchDetector and the name
      table of the staff

    Part II, the properties: [PitchDetectorSpec], [Binary64Facts],
    [NumberFacts], [MusicUtilsSpec], [CentsSpec], [UnrecognizedNotes],
    [NoteMapperAgreement], [StaffAnalyzerWidgetSpec] and
    [UsePitchDetectionSpec].

    Part III, further properties of the same files: [PitchDetectorRange],
    [PitchBufferSpec], [PitchDetectorLifecycleSpec], [NotationSpec],
    [NoteNameSpec], [PitchPointSpec], [NoteBufferBounds] and
    [EvictionAtEdge].

    Number model.  A JavaScript number is an IEEE-754 binary64 number, here a
    primitive float of Rocq, bit for bit: so in the autocorrelation estimator
    and in the note mapper, with +, -, *, /, <, Math.abs and Math.sqrt the
    primitive operations and Math.round, Math.floor and % defined on the
    binary representation.  Math.log, Math.log2 and Math.pow have no IEEE
    definition; ECMA-262 leaves them implementation-approximated and fixes
    their values at special arguments only.  They are the fields of the class
    [Math], and what is proved of the note mapper is proved for every [Math]
    object.  [MusicUtilsOverReals] reads the two conversions of the note
    mapper over the real numbers instead (Math.log is [ln], Math.pow is
    [Rpower], nothing is rounded); it serves the round trip of a note through
    both of them, whose octave is decided far from any rounding boundary.
    Time stamps of the note buffer are integers (Date.now()) and the display
    arithmetic is exact rational arithmetic.

    Object literals.  A lookup [table[key]] in an object literal finds the
    own properties of the literal and, behind them, the members of
    [Object.prototype]. *)

From Stdlib Require Import ZArith QArith Qminmax Reals Lra Lia List String Bool Floats.
From Stdlib Require Uint63 Lqa.
From stdpp Require Import base gmap sets strings.
Import ListNotations.

Set Warnings "-inexact-float,-clear-no-such-hyp".

(** * Part I: the embedding *)

(** ** JavaScript helpers shared by the modules below *)
Module Js.

(** [arr.indexOf(x)] on an array of strings: the first index, or -1. *)
Fixpoint indexOf_from (arr : list string) (x : string) (i : Z) : Z :=
  match arr with
  | [] => (-1)%Z
  | y :: arr' => if String.eqb y x then i else indexOf_from arr' x (i + 1)%Z
  end.

Definition indexOf (arr : list string) (x : string) : Z := indexOf_from arr x 0%Z.

(** [arr[i]] for an integral index: [None] is JavaScript's [undefined]. *)
Definition index {A : Type} (arr : list A) (i : Z) : option A :=
  if (i <? 0)%Z then None else nth_error arr (Z.to_nat i).

(** [arr.slice(start)] for an integral [start]: a negative [start] counts
    from the end of the array. *)
Definition slice_from {A : Type} (arr : list A) (start : Z) : list A :=
  let len := Z.of_nat (List.length arr) in
  let k := if (start <? 0)%Z then Z.max (len + start) 0 else Z.min start len in
  skipn (Z.to_nat k) arr.

(** [x % y] on integral numbers: the remainder takes the sign of [x]. *)
Definition rem (x y : Z) : Z := Z.rem x y.

(** [Math.floor] and [Math.round] on real numbers; [Math.round] rounds
    halves towards plus infinity. *)
Definition Math_floor (x : R) : Z := Zfloor x.
Definition Math_round (x : R) : Z := Zfloor (x + / 2).

(** [v || d] where [v] is an optional number: [undefined] and 0 are falsy. *)
Definition or_Q (v : option Q) (d : Q) : Q :=
  match v with
  | Some q => if Qeq_bool q 0 then d else q
  | None => d
  end.

(** The same on an optional integer. *)
Definition or_Z (v : option Z) (d : Z) : Z :=
  match v with
  | Some z => if (z =? 0)%Z then d else z
  | None => d
  end.

(** [v || d] on an optional boolean: [undefined] and [false] are falsy. *)
Definition or_bool (v : option bool) (d : bool) : bool :=
  match v with
  | Some true => true
  | _ => d
  end.


(** *** Values and object literals *)

(** A JavaScript value: [undefined], a string, a number, or a member of
    [Object.prototype] (a function, or the prototype object itself for
    [__proto__]), named by its property name. *)
Inductive JsValue :=
| JsUndefined
| JsString (s : string)
| JsNumber (x : float)
| JsInherited (member : string).

Definition of_option_string (v : option string) : JsValue :=
  match v with
  | Some s => JsString s
  | None => JsUndefined
  end.

(** The property names of [Object.prototype] (ECMA-262, with the legacy
    members of its annex B). *)
Definition Object_prototype : list string :=
  ["constructor"; "__defineGetter__"; "__defineSetter__"; "hasOwnProperty";
   "__lookupGetter__"; "__lookupSetter__"; "isPrototypeOf";
   "propertyIsEnumerable"; "toString"; "valueOf"; "__proto__";
   "toLocaleString"]%string.

Definition inherited (key : string) : bool :=
  existsb (String.eqb key) Object_prototype.

(** [table[key]] on an object literal with the own properties [table]: an
    own property, else what the key finds in [Object.prototype], else
    [undefined]. *)
Definition get (table : gmap string string) (key : string) : JsValue :=
  match table !! key with
  | Some v => JsString v
  | None => if inherited key then JsInherited key else JsUndefined
  end.

(** [v || d] for a string [d]: [undefined], the empty string, 0 and NaN are
    falsy, functions and objects are truthy. *)
Definition or_else (v : JsValue) (d : string) : JsValue :=
  match v with
  | JsUndefined => JsString d
  | JsString EmptyString => JsString d
  | JsNumber x => if PrimFloat.is_nan x || PrimFloat.is_zero x then JsString d else v
  | _ => v
  end.

End Js.

(** ** JavaScript numbers *)
Module Binary64.
Local Open Scope float_scope.

(** An integer of magnitude below 2^53 as a number. *)
Definition of_Z (n : Z) : float :=
  if (n <? 0)%Z then - PrimFloat.of_uint63 (Uint63.of_Z (- n))
  else PrimFloat.of_uint63 (Uint63.of_Z n).

(** [Math.round(x)]: an integral, infinite or NaN [x] is returned as it is;
    otherwise the integer [floor(x + 1/2)], halves going towards plus
    infinity, and the negative zero for [-1/2 <= x < 0].  A finite number is
    [(-1)^s * m * 2^e], and integral when [0 <= e]. *)
Definition Math_round (x : float) : float :=
  match Prim2SF x with
  | S754_finite s m e =>
      if (0 <=? e)%Z then x
      else
        let n := ((cond_Zopp s (Zpos m) + 2 ^ (- e - 1)) / 2 ^ (- e))%Z in
        if (n =? 0)%Z then (if s then -0 else 0) else of_Z n
  | _ => x
  end.

(** [Math.floor(x)] *)
Definition Math_floor (x : float) : float :=
  match Prim2SF x with
  | S754_finite s m e =>
      if (0 <=? e)%Z then x
      else
        let n := (cond_Zopp s (Zpos m) / 2 ^ (- e))%Z in
        if (n =? 0)%Z then 0 else of_Z n
  | _ => x
  end.

(** [n % d]: NaN when [n] is infinite or [d] is zero, [n] when [d] is
    infinite or [n] is zero, otherwise the exact remainder of the truncated
    division, with the sign of [n]. *)
Definition rem (n d : float) : float :=
  match Prim2SF n, Prim2SF d with
  | S754_nan, _ | _, S754_nan => nan
  | S754_infinity _, _ => nan
  | _, S754_infinity _ => n
  | _, S754_zero _ => nan
  | S754_zero _, _ => n
  | S754_finite sn mn en, S754_finite _ md ed =>
      let e := Z.min en ed in
      let r := Z.rem (Zpos mn * 2 ^ (en - e)) (Zpos md * 2 ^ (ed - e)) in
      if (r =? 0)%Z then (if sn then -0 else 0)
      else SF2Prim (binary_normalize prec emax (cond_Zopp sn r) e false)
  end.

Definition Math_abs (x : float) : float := PrimFloat.abs x.

(** [Math.max(x, y)] and [Math.min(x, y)]: NaN when an argument is NaN; of
    the two zeros the positive one is the larger. *)
Definition Math_max (x y : float) : float :=
  if is_nan x || is_nan y then nan
  else if x <? y then y
  else if y <? x then x
  else if is_zero x && get_sign x then y else x.

Definition Math_min (x y : float) : float :=
  if is_nan x || is_nan y then nan
  else if x <? y then x
  else if y <? x then y
  else if is_zero x && negb (get_sign x) then y else x.

(** [!x]: the zeros and NaN are falsy. *)
Definition falsy (x : float) : bool := is_nan x || is_zero x.

(** [arr[x]] for a number [x]: [None] is [undefined], which is what a
    negative, fractional, infinite or NaN index reads, and an index of 2^52
    or more, which is past the end of every array. *)
Definition index {A : Type} (arr : list A) (x : float) : option A :=
  match Prim2SF x with
  | S754_zero _ => nth_error arr 0
  | S754_finite false m e =>
      if (0 <=? e)%Z then None
      else if (Zpos m mod 2 ^ (- e) =? 0)%Z
           then nth_error arr (Z.to_nat (Zpos m / 2 ^ (- e)))
           else None
  | _ => None
  end.

(** Math.log, Math.log2 and Math.pow.  ECMA-262 leaves their values
    implementation-approximated; among the values it fixes is
    [Math.log(+0) = -Infinity]. *)
Class Math := {
  Math_log : float -> float;
  Math_log2 : float -> float;
  Math_pow : float -> float -> float;
  Math_log_zero : Math_log 0 = neg_infinity
}.

End Binary64.

(** ** A Math object *)

(** The three functions computed in binary64 by power series, to evaluate
    the note mapper on examples.  Its values are close to those of a
    browser, not bit for bit the same, and [Math_pow] is meant for a positive
    base, as the sources call it (the base is 2 or the semitone ratio).  No
    theorem about all [Math] objects depends on it. *)
Module SeriesMath.
Import Binary64.
Local Open Scope float_scope.

Definition ln2 : float := 0.6931471805599453.

(** [2 * atanh t] for [|t| < 0.172]. *)
Definition atanh2 (t : float) : float :=
  let u := t * t in
  2 * t * (1 + u * (1 / 3 + u * (1 / 5 + u * (1 / 7 + u * (1 / 9 + u * (1 / 11
    + u * (1 / 13 + u * (1 / 15 + u * (1 / 17 + u * (1 / 19 + u * (1 / 21
    + u * (1 / 23)))))))))))).

(** [x = m * 2^e] with [m] between the square roots of 1/2 and of 2. *)
Definition split (x : float) : float * Z :=
  let '(m, e) := Z.frexp x in
  if m <? 0.7071067811865476 then (2 * m, (e - 1)%Z) else (m, e).

Definition log (x : float) : float :=
  if is_nan x || (x <? 0) then nan
  else if is_zero x then neg_infinity
  else if is_infinity x then infinity
  else
    let '(m, e) := split x in
    of_Z e * ln2 + atanh2 ((m - 1) / (m + 1)).

Definition log2 (x : float) : float :=
  if is_nan x || (x <? 0) then nan
  else if is_zero x then neg_infinity
  else if is_infinity x then infinity
  else
    let '(m, e) := split x in
    of_Z e + atanh2 ((m - 1) / (m + 1)) / ln2.

(** The integer part of a finite number, rounded down. *)
Definition floorZ (x : float) : Z :=
  match Prim2SF x with
  | S754_finite s m e =>
      if (0 <=? e)%Z then (cond_Zopp s (Zpos m) * 2 ^ e)%Z
      else (cond_Zopp s (Zpos m) / 2 ^ (- e))%Z
  | _ => 0%Z
  end.

(** [1 + r/k * (1 + r/(k+1) * (...))], [n] terms of the exponential series. *)
Fixpoint expSeries (n : nat) (k r : float) : float :=
  match n with
  | O => 1
  | S n' => 1 + r / k * expSeries n' (k + 1) r
  end.

Definition exp (z : float) : float :=
  if is_nan z then nan
  else if 709.782712893384 <? z then infinity
  else if z <? -745.1332191019412 then 0
  else
    let k := floorZ (z / ln2 + 0.5) in
    let r := z - of_Z k * ln2 in
    Z.ldexp (expSeries 20 1 r) k.

Definition pow (x y : float) : float :=
  if is_nan y then nan
  else if is_zero y then 1
  else exp (y * log x).

Definition seriesMath : Math :=
  {| Math_log := log; Math_log2 := log2; Math_pow := pow;
     Math_log_zero := eq_refl |}.

End SeriesMath.

(** ** utils/pitchDetection.ts: the autocorrelation pitch estimator *)
Module PitchDetector.

Local Open Scope float_scope.

(** [buffer.length] and loop counters used as numbers. *)
Definition of_nat (n : nat) : float :=
  PrimFloat.of_uint63 (Uint63.of_Z (Z.of_nat n)).

(** [buffer[i]]: a read past the end of a typed array is [undefined],
    which arithmetic turns into NaN. *)
Definition get (buffer : list float) (i : nat) : float := nth i buffer nan.

(** [for (i = 0; i < size; i++) rms += buffer[i] * buffer[i]] *)
Definition sumSquares (buffer : list float) : float :=
  fold_left (fun rms val => rms + val * val) buffer 0.

(** [rms = Math.sqrt(rms / size)] *)
Definition rmsOf (buffer : list float) : float :=
  PrimFloat.sqrt (sumSquares buffer / of_nat (List.length buffer)).

(** The energy gate [rms < 0.01]. *)
Definition rmsGate (buffer : list float) : bool := rmsOf buffer <? 0.01.

(** [for (i = 0; i < maxSamples; i++)
       correlation += Math.abs(buffer[i] - buffer[i + offset])],
    with [count] iterations left and [i] the current index. *)
Fixpoint sumAbsDiff (buffer : list float) (offset i count : nat)
         (correlation : float) : float :=
  match count with
  | O => correlation
  | S count' =>
      sumAbsDiff buffer offset (S i) count'
        (correlation + PrimFloat.abs (get buffer i - get buffer (i + offset)))
  end.

(** One pass of the body of the outer loop at lag [offset]. *)
Definition tryOffset (buffer : list float) (maxSamples offset : nat)
           (best : Z * float) : Z * float :=
  let correlation := sumAbsDiff buffer offset 0 maxSamples 0 in
  let correlation := 1 - correlation / of_nat maxSamples in
  if snd best <? correlation then (Z.of_nat offset, correlation) else best.

(** [for (offset = 1; offset < maxSamples; offset++)], with [count]
    iterations left; [best] is [(bestOffset, bestCorrelation)]. *)
Fixpoint autocorrelate (buffer : list float) (maxSamples offset count : nat)
         (best : Z * float) : Z * float :=
  match count with
  | O => best
  | S count' =>
      autocorrelate buffer maxSamples (S offset) count'
        (tryOffset buffer maxSamples offset best)
  end.

Definition detectPitch (sampleRate : float) (buffer : list float) : float :=
  let size := List.length buffer in
  let maxSamples := Nat.div size 2 in
  if rmsGate buffer then 0
  else
    let '(bestOffset, bestCorrelation) :=
      autocorrelate buffer maxSamples 1 (maxSamples - 1) ((-1)%Z, 0) in
    if (bestOffset =? -1)%Z || (bestCorrelation <? 0.3) then 0
    else sampleRate / PrimFloat.of_uint63 (Uint63.of_Z bestOffset).

(** A silent buffer: every sample is a zero of either sign. *)
Definition isZero (v : float) : Prop := v = 0 \/ v = (-0).
Definition silent (buffer : list float) : Prop := Forall isZero buffer.

End PitchDetector.

(** ** types/index.ts: the note name tables *)
Module Types.

Definition NOTE_NAMES_ABC : list string :=
  ["C"; "C#"; "D"; "D#"; "E"; "F"; "F#"; "G"; "G#"; "A"; "A#"; "B"]%string.

(** The own properties of the object literal. *)
Definition NOTE_NAMES_DOREMI_MAP : gmap string string :=
  list_to_map
    [("C", "Do"); ("C#", "Do#"); ("Db", "Reb"); ("D", "Re"); ("D#", "Re#");
     ("Eb", "Mib"); ("E", "Mi"); ("F", "Fa"); ("F#", "Fa#"); ("Gb", "Solb");
     ("G", "Sol"); ("G#", "Sol#"); ("Ab", "Lab"); ("A", "La"); ("A#", "La#");
     ("Bb", "Tib"); ("B", "Ti")]%string.

Inductive NotationSystem := ABC | DoReMi.
Inductive AccidentalSystem := sharp | flat.

(** The note spellings some table of the note mapper knows: the key set of
    [NOTE_NAMES_DOREMI_MAP], which contains [NOTE_NAMES_ABC] and the keys
    of both accidental tables. *)
Definition recognizedNames : list string :=
  ["C"; "C#"; "Db"; "D"; "D#"; "Eb"; "E"; "F"; "F#"; "Gb"; "G"; "G#"; "Ab";
   "A"; "A#"; "Bb"; "B"]%string.

Definition recognized (note : string) : Prop := In note recognizedNames.

End Types.

(** ** types/index.ts: a pitch point *)
Module PitchPoint.

(** [note] is [None] when the array read of the note mapper yields
    [undefined]. *)
Record PitchPoint := {
  timestamp : float;
  frequency : float;
  note : option string;
  cents : float;
  confidence : float;
  octave : float
}.

End PitchPoint.

(** ** utils/musicUtils.ts: the note mapper *)
Module MusicUtils.
Import Js Binary64 Types.
Local Open Scope float_scope.

(** The shape [{ note, octave, cents }] both frequency-to-note functions
    return; [note] is [None] when the array read yields [undefined]. *)
Record NoteInfo := { note : option string; octave : float; cents : float }.

Section WithMath.
Context {M : Math}.

(** [Math.pow(2, 1 / 12)] *)
Definition semitoneRatio : float := Math_pow 2 (1 / 12).

(** The semitone count [frequencyToNote] computes first. *)
Definition semitonesFromA4 (frequency standardPitch : float) : float :=
  Math_log (frequency / standardPitch) / Math_log semitoneRatio.

Definition frequencyToNote (frequency standardPitch : float) : NoteInfo :=
  let A4 := standardPitch in
  let semitoneRatio := Math_pow 2 (1 / 12) in
  let semitonesFromA4 := Math_log (frequency / A4) / Math_log semitoneRatio in
  let octave := Math_floor (semitonesFromA4 / 12) + 4 in
  let noteIndex := rem (Math_round semitonesFromA4) 12 in
  let noteIndex := if noteIndex <? 0 then noteIndex + 12 else noteIndex in
  let noteIndex := rem (noteIndex + 9) 12 in
  let note := index NOTE_NAMES_ABC noteIndex in
  let exactSemitones := semitonesFromA4 in
  let roundedSemitones := Math_round exactSemitones in
  let cents := Math_round ((exactSemitones - roundedSemitones) * 100) in
  {| note := note; octave := octave; cents := cents |}.

Definition noteToFrequency (note : string) (octave standardPitch : float) : float :=
  let noteIndex := indexOf NOTE_NAMES_ABC note in
  if (noteIndex =? -1)%Z then 0
  else
    let A4 := standardPitch in
    let semitoneRatio := Math_pow 2 (1 / 12) in
    let semitonesFromA4 := (octave - 4) * 12 + (of_Z noteIndex - 9) in
    A4 * Math_pow semitoneRatio semitonesFromA4.

End WithMath.

Definition getNoteDisplayName (note : string) (notationSystem : NotationSystem)
  : JsValue :=
  match notationSystem with
  | ABC => JsString note
  | DoReMi => or_else (get NOTE_NAMES_DOREMI_MAP note) note
  end.

Definition flatToSharp : gmap string string :=
  list_to_map
    [("Db", "C#"); ("Eb", "D#"); ("Gb", "F#"); ("Ab", "G#"); ("Bb", "A#")]%string.

Definition sharpToFlat : gmap string string :=
  list_to_map
    [("C#", "Db"); ("D#", "Eb"); ("F#", "Gb"); ("G#", "Ab"); ("A#", "Bb")]%string.

Definition convertAccidental (note : string) (accidentalSystem : AccidentalSystem)
  : JsValue :=
  match accidentalSystem with
  | sharp => or_else (get flatToSharp note) note
  | flat => or_else (get sharpToFlat note) note
  end.

Definition transposeNote (note fromKey toKey : string) : option string :=
  let fromIndex := Js.indexOf NOTE_NAMES_ABC fromKey in
  let toIndex := Js.indexOf NOTE_NAMES_ABC toKey in
  let noteIndex := Js.indexOf NOTE_NAMES_ABC note in
  if (fromIndex =? -1)%Z || (toIndex =? -1)%Z || (noteIndex =? -1)%Z
  then Some note
  else
    let transposition := (toIndex - fromIndex)%Z in
    let newNoteIndex := Js.rem (noteIndex + transposition) 12 in
    let newNoteIndex :=
      if (newNoteIndex <? 0)%Z then (newNoteIndex + 12)%Z else newNoteIndex in
    Js.index NOTE_NAMES_ABC newNoteIndex.

(** *** Staff position, pitch points and smoothing *)

(** [notePositions] of [getStaffPosition], in half positions of the staff. *)
Definition notePositions : list Q :=
  [0; 1 # 2; 1; 3 # 2; 2; 3; 7 # 2; 4; 9 # 2; 5; 11 # 2; 6]%Q.

Definition getStaffPosition (note : string) (octave : Z) : Q :=
  let noteIndex := Js.indexOf NOTE_NAMES_ABC note in
  if (noteIndex =? -1)%Z then 0%Q
  else
    let C4Position := 0%Q in
    let octaveOffset := inject_Z ((octave - 4) * 7) in
    match Js.index notePositions noteIndex with
    | Some position => (C4Position + octaveOffset + position)%Q
    | None => 0%Q
    end.

Section WithMath.
Context {M : Math}.

(** [createPitchPoint(frequency, standardPitch, timestamp)]; the defaults of
    the last two parameters are filled in by the caller. *)
Definition createPitchPoint (frequency standardPitch timestamp : float)
  : PitchPoint.PitchPoint :=
  let r := frequencyToNote frequency standardPitch in
  let confidence := 1 - Math_abs (cents r) / 50 in
  {| PitchPoint.timestamp := timestamp;
     PitchPoint.frequency := frequency;
     PitchPoint.note := note r;
     PitchPoint.octave := octave r;
     PitchPoint.cents := cents r;
     PitchPoint.confidence := Math_max 0 (Math_min 1 confidence) |}.

(** [arr.slice(start, end)] for indices within the array. *)
Definition slice {A : Type} (arr : list A) (start stop : nat) : list A :=
  firstn (stop - start) (skipn start arr).

(** [window.reduce((sum, point) => sum + point.frequency, 0) / window.length] *)
Definition avgFrequency (window : list PitchPoint.PitchPoint) : float :=
  fold_left (fun sum point => sum + PitchPoint.frequency point) window 0
  / of_Z (Z.of_nat (List.length window)).

(** The body of the loop of [smoothPitchData] at index [i].  The call is
    [createPitchPoint(avgFrequency, pitchPoints[i].timestamp)]: the time stamp
    of the point stands in the place of the standard pitch, and the time
    stamp of the new point is the default [Date.now()], here [now]. *)
Definition smoothedPoint (pitchPoints : list PitchPoint.PitchPoint)
           (windowSize : nat) (now : float) (i : nat) (point : PitchPoint.PitchPoint)
  : PitchPoint.PitchPoint :=
  let start := Nat.max 0 (i - Nat.div windowSize 2) in
  let stop := Nat.min (List.length pitchPoints) (start + windowSize) in
  let window := slice pitchPoints start stop in
  createPitchPoint (avgFrequency window) (PitchPoint.timestamp point) now.

(** [smoothPitchData(pitchPoints, windowSize)]; [clock i] is what [Date.now()]
    answers when the [i]-th point is created. *)
Definition smoothPitchData (pitchPoints : list PitchPoint.PitchPoint)
           (windowSize : nat) (clock : nat -> float) : list PitchPoint.PitchPoint :=
  if (List.length pitchPoints <=? windowSize)%nat then pitchPoints
  else
    imap (fun i point => smoothedPoint pitchPoints windowSize (clock i) i point)
         pitchPoints.

End WithMath.

Definition centsToColor (cents : float) : string :=
  let absCents := Math_abs cents in
  if absCents <=? 5 then "#10b981"
  else if absCents <=? 15 then "#f59e0b"
  else if absCents <=? 25 then "#f97316"
  else "#ef4444".

End MusicUtils.

(** ** utils/musicUtils.ts: the two conversions over the real numbers *)

(** [frequencyToNote] and [noteToFrequency] with real numbers in the place of
    binary64 numbers: Math.log is [ln], Math.pow is [Rpower], and nothing is
    rounded, overflows or is NaN. *)
Module MusicUtilsOverReals.
Import Types.
Local Open Scope R_scope.

Record NoteInfo := { note : option string; octave : Z; cents : Z }.

(** [Math.pow(2, 1 / 12)] *)
Definition semitoneRatio : R := Rpower 2 (1 / 12).

Definition frequencyToNote (frequency standardPitch : R) : NoteInfo :=
  let A4 := standardPitch in
  let semitonesFromA4 := ln (frequency / A4) / ln semitoneRatio in
  let octave := (Js.Math_floor (semitonesFromA4 / 12) + 4)%Z in
  let noteIndex := Js.rem (Js.Math_round semitonesFromA4) 12 in
  let noteIndex := if (noteIndex <? 0)%Z then (noteIndex + 12)%Z else noteIndex in
  let noteIndex := Js.rem (noteIndex + 9) 12 in
  let note := Js.index NOTE_NAMES_ABC noteIndex in
  let exactSemitones := semitonesFromA4 in
  let roundedSemitones := Js.Math_round exactSemitones in
  let cents := Js.Math_round ((exactSemitones - IZR roundedSemitones) * 100) in
  {| note := note; octave := octave; cents := cents |}.

Definition noteToFrequency (note : string) (octave : Z) (standardPitch : R) : R :=
  let noteIndex := Js.indexOf NOTE_NAMES_ABC note in
  if (noteIndex =? -1)%Z then 0
  else
    let A4 := standardPitch in
    let semitonesFromA4 := ((octave - 4) * 12 + (noteIndex - 9))%Z in
    A4 * Rpower semitoneRatio (IZR semitonesFromA4).

End MusicUtilsOverReals.

(** ** hooks/usePitchDetection.ts: the hook's own frequency-to-note mapping *)
Module UsePitchDetection.
Import Binary64 Types.

Definition noteNames : list string :=
  ["C"; "Câ™¯"; "D"; "Dâ™¯"; "E"; "F"; "Fâ™¯"; "G"; "Gâ™¯"; "A"; "Aâ™¯"; "B"]%string.

Section WithMath.
Context {M : Math}.
Local Open Scope float_scope.

(** The guard [!frequency || frequency < 20]. *)
Definition guard (frequency : float) : bool := falsy frequency || (frequency <? 20).

(** The semitone count the hook computes, [12 * Math.log2(frequency / A4)]. *)
Definition semitonesFromA4 (standartPitch frequency : float) : float :=
  12 * Math_log2 (frequency / standartPitch).

(** [frequencyToNote] closes over the preference [standartPitch]. *)
Definition frequencyToNote (standartPitch frequency : float) : MusicUtils.NoteInfo :=
  if falsy frequency || (frequency <? 20)
  then {| MusicUtils.note := Some ""%string; MusicUtils.octave := 0;
          MusicUtils.cents := 0 |}
  else
    let A4 := standartPitch in
    let semitonesFromA4 := 12 * Math_log2 (frequency / A4) in
    let octave := Math_floor ((semitonesFromA4 + 9) / 12) + 4 in
    let noteIndex := rem (Math_round semitonesFromA4) 12 in
    let adjustedNoteIndex := rem (noteIndex + 9) 12 in
    let exactSemitones := 12 * Math_log2 (frequency / A4) in
    let roundedSemitones := Math_round exactSemitones in
    let cents := Math_round ((exactSemitones - roundedSemitones) * 100) in
    {| MusicUtils.note := index noteNames adjustedNoteIndex;
       MusicUtils.octave := octave;
       MusicUtils.cents := cents |}.

End WithMath.

(** *** The capture resources and [stop] *)

(** A media stream and the ids of its tracks. *)
Record MediaStream := { streamId : nat; getTracks : list nat }.

(** The browser side of the capture: the tracks still live, the source
    nodes still connected, the audio contexts already closed and the
    animation frames still requested. *)
Record Browser := {
  liveTracks : gset nat;
  connectedSources : gset nat;
  closedContexts : gset nat;
  pendingFrames : gset Z
}.

Record PitchDetectionResult := {
  frequency : option Q;
  clarity : Q;
  resultNote : string;
  resultOctave : Z;
  resultCents : Z
}.

(** The state and the refs of the hook; [None] is [null] or [undefined]. *)
Record HookState := {
  result : PitchDetectionResult;
  isActive : bool;
  isActiveRef : bool;
  audioContextRef : option nat;
  analyserRef : option nat;
  rafRef : option Z;
  streamRef : option MediaStream;
  sourceRef : option nat;
  isMountedRef : bool
}.

Definition emptyResult : PitchDetectionResult :=
  {| frequency := None; clarity := 0; resultNote := ""; resultOctave := 0;
     resultCents := 0 |}.

(** [if (rafRef.current)]: an id is truthy unless it is 0. *)
Definition truthyFrame (raf : option Z) : option Z :=
  match raf with
  | Some id => if (id =? 0)%Z then None else Some id
  | None => None
  end.

(** [track.stop()] for every track of the stream. *)
Definition stopTracks (stream : MediaStream) (live : gset nat) : gset nat :=
  live ∖ list_to_set (getTracks stream).

Definition stop (st : HookState * Browser) : HookState * Browser :=
  let '(h, b) := st in
  (* setIsActive(false); isActiveRef.current = false *)
  let isActive1 := false in
  let isActiveRef1 := false in
  (* Clean up RAF *)
  let '(rafRef1, pendingFrames1) :=
    match truthyFrame (rafRef h) with
    | Some id => (None, pendingFrames b ∖ {[ id ]})
    | None => (rafRef h, pendingFrames b)
    end in
  (* Clean up audio stream *)
  let '(streamRef1, liveTracks1) :=
    match streamRef h with
    | Some stream => (None, stopTracks stream (liveTracks b))
    | None => (None, liveTracks b)
    end in
  (* Clean up audio source *)
  let '(sourceRef1, connectedSources1) :=
    match sourceRef h with
    | Some source => (None, connectedSources b ∖ {[ source ]})
    | None => (None, connectedSources b)
    end in
  (* Clean up audio context *)
  let '(audioContextRef1, closedContexts1) :=
    match audioContextRef h with
    | Some ctx =>
        if decide (ctx ∈ closedContexts b)
        then (Some ctx, closedContexts b)
        else (None, closedContexts b ∪ {[ ctx ]})
    | None => (None, closedContexts b)
    end in
  ({| result := emptyResult;
      isActive := isActive1;
      isActiveRef := isActiveRef1;
      audioContextRef := audioContextRef1;
      analyserRef := None;
      rafRef := rafRef1;
      streamRef := streamRef1;
      sourceRef := sourceRef1;
      isMountedRef := isMountedRef h |},
   {| liveTracks := liveTracks1;
      connectedSources := connectedSources1;
      closedContexts := closedContexts1;
      pendingFrames := pendingFrames1 |}).

(** The guard at the head of [update]: the detection loop goes on only
    while the hook is mounted and active and holds an analyser. *)
Definition updateRuns (h : HookState) : bool :=
  isMountedRef h && isActiveRef h
  && match analyserRef h with Some _ => true | None => false end.

End UsePitchDetection.

(** ** components/widgets/StaffAnalyzerWidget.tsx: the scrolling note buffer *)
Module StaffAnalyzerWidget.
Local Open Scope Q_scope.

Record NoteHistoryItem := {
  note : string;
  freq : Q;
  clarity : Q;
  timestamp : Z;
  isTick : option bool;
  tickId : option Z;
  isVisible : option bool
}.

(** The entries of [settings] the widget reads; [None] is an absent entry. *)
Record Settings := {
  settings_bufferSize : option Z;
  settings_minClarity : option Q;
  settings_timeWindow : option Q
}.

Definition bufferSize (settings : Settings) : Z :=
  Js.or_Z (settings_bufferSize settings) 100.
Definition minClarity (settings : Settings) : Q :=
  Js.or_Q (settings_minClarity settings) (1 # 10).
Definition timeWindow (settings : Settings) : Q :=
  Js.or_Q (settings_timeWindow settings) 10.

(** [x < y] and [x >= y] on numbers. *)
Definition ltb (x y : Q) : bool := negb (Qle_bool y x).
Definition geb (x y : Q) : bool := Qle_bool y x.

Definition getNoteLeft (timeWindow : Q) (noteTimestamp currentTime : Z) : Q :=
  let age := inject_Z (currentTime - noteTimestamp) in
  let maxAge := timeWindow * 1000 in
  let progress := age / maxAge in
  let rightEdge := 90 in
  let leftEdge := 10 in
  let position := rightEdge - progress * (rightEdge - leftEdge) in
  Qmax leftEdge (Qmin rightEdge position).

(** The state of the widget: the note buffer, the clock of the last frame,
    the three refs of the throttles and the animation effect's
    [lastCleanupTime]. *)
Record WidgetState := {
  latestNotes : list NoteHistoryItem;
  currentTime : Z;
  lastTickTimeRef : Z;
  previousBeatRef : Z;
  lastNoteTimeRef : Z;
  lastCleanupTime : Z
}.

Definition initialState (now : Z) : WidgetState :=
  {| latestNotes := []; currentTime := now; lastTickTimeRef := 0;
     previousBeatRef := 0; lastNoteTimeRef := 0; lastCleanupTime := 0 |}.

(** The updater the animation loop gives [setLatestNotes]. *)
Definition cleanup (timeWindow : Q) (now : Z) (prev : list NoteHistoryItem)
  : list NoteHistoryItem :=
  let maxAge := timeWindow * 1000 in
  let filtered :=
    List.filter (fun note => ltb (inject_Z (now - timestamp note)) maxAge) prev in
  if negb (List.length filtered =? List.length prev)%nat then filtered else prev.

(** One animation frame at time [now]. *)
Definition animate (timeWindow : Q) (now : Z) (st : WidgetState) : WidgetState :=
  if (now - lastCleanupTime st >? 500)%Z
  then {| latestNotes := cleanup timeWindow now (latestNotes st);
          currentTime := now;
          lastTickTimeRef := lastTickTimeRef st;
          previousBeatRef := previousBeatRef st;
          lastNoteTimeRef := lastNoteTimeRef st;
          lastCleanupTime := now |}
  else {| latestNotes := latestNotes st;
          currentTime := now;
          lastTickTimeRef := lastTickTimeRef st;
          previousBeatRef := previousBeatRef st;
          lastNoteTimeRef := lastNoteTimeRef st;
          lastCleanupTime := lastCleanupTime st |}.

Definition appendNote (item : NoteHistoryItem) (st : WidgetState) : WidgetState :=
  {| latestNotes := latestNotes st ++ [item];
     currentTime := currentTime st;
     lastTickTimeRef := lastTickTimeRef st;
     previousBeatRef := previousBeatRef st;
     lastNoteTimeRef := lastNoteTimeRef st;
     lastCleanupTime := lastCleanupTime st |}.

Definition clearHistory (st : WidgetState) : WidgetState :=
  {| latestNotes := [];
     currentTime := currentTime st;
     lastTickTimeRef := lastTickTimeRef st;
     previousBeatRef := previousBeatRef st;
     lastNoteTimeRef := lastNoteTimeRef st;
     lastCleanupTime := lastCleanupTime st |}.

(** [!n.isTick] *)
Definition isPitch (n : NoteHistoryItem) : bool := negb (Js.or_bool (isTick n) false).

Section Effects.

(** [getNote] turns a frequency into the display string of its note (through
    the note mapper and the notation preferences); the effects below only
    test whether that string is empty. *)
Variable getNote : Q -> string.
Variable settings : Settings.

Definition nonEmpty (s : string) : bool :=
  match s with EmptyString => false | _ => true end.

(** The effect on [frequency] and [clarity], run at [Date.now() = now]. *)
Definition noteEffect (frequency : option Q) (clarity : Q) (now : Z)
           (st : WidgetState) : WidgetState :=
  match frequency with
  | Some f =>
      if negb (Qeq_bool f 0) && ltb 50 f then
        (* Throttle note addition to prevent too many notes *)
        if (now - lastNoteTimeRef st <? 100)%Z then st
        else
          let noteString := getNote f in
          if nonEmpty noteString then
            {| latestNotes :=
                 latestNotes st ++
                 [ {| note := noteString; freq := f; clarity := clarity;
                      timestamp := now; isTick := None; tickId := None;
                      isVisible := Some (geb clarity (minClarity settings)) |} ];
               currentTime := currentTime st;
               lastTickTimeRef := lastTickTimeRef st;
               previousBeatRef := previousBeatRef st;
               lastNoteTimeRef := now;
               lastCleanupTime := lastCleanupTime st |}
          else st
      else st
  | None => st
  end.

Definition newTick (now : Z) : NoteHistoryItem :=
  {| note := ""; freq := 0; clarity := 0; timestamp := now;
     isTick := Some true; tickId := Some now; isVisible := Some true |}.

(** The effect on [metronomeIsPlaying] and [currentBeat]. *)
Definition tickEffect (metronomeIsPlaying : bool) (currentBeat : Z) (now : Z)
           (st : WidgetState) : WidgetState :=
  if metronomeIsPlaying && (currentBeat >? 0)%Z then
    if negb (currentBeat =? previousBeatRef st)%Z then
      (* Prevent duplicate ticks within 50ms *)
      if (now - lastTickTimeRef st >=? 50)%Z then
        {| latestNotes :=
             Js.slice_from (latestNotes st ++ [newTick now]) (- bufferSize settings);
           currentTime := currentTime st;
           lastTickTimeRef := now;
           previousBeatRef := currentBeat;
           lastNoteTimeRef := lastNoteTimeRef st;
           lastCleanupTime := lastCleanupTime st |}
      else
        {| latestNotes := latestNotes st;
           currentTime := currentTime st;
           lastTickTimeRef := lastTickTimeRef st;
           previousBeatRef := currentBeat;
           lastNoteTimeRef := lastNoteTimeRef st;
           lastCleanupTime := lastCleanupTime st |}
    else st
  else if negb metronomeIsPlaying then
    {| latestNotes := latestNotes st;
       currentTime := currentTime st;
       lastTickTimeRef := lastTickTimeRef st;
       previousBeatRef := 0;
       lastNoteTimeRef := lastNoteTimeRef st;
       lastCleanupTime := lastCleanupTime st |}
  else st.

(** A sample note, from the test-mode generator or the test button: appended
    as it is, past the throttle. *)
Definition testNote (name : string) (frequency clarity : Q) (now : Z)
  : NoteHistoryItem :=
  {| note := name; freq := frequency; clarity := clarity; timestamp := now;
     isTick := None; tickId := None; isVisible := Some true |}.

(** What can happen to the widget. *)
Inductive Event :=
| Frame (now : Z)
| Detection (frequency : option Q) (clarity : Q) (now : Z)
| Beat (metronomeIsPlaying : bool) (currentBeat : Z) (now : Z)
| TestNote (name : string) (frequency clarity : Q) (now : Z)
| ClearHistory.

Definition step (st : WidgetState) (ev : Event) : WidgetState :=
  match ev with
  | Frame now => animate (timeWindow settings) now st
  | Detection frequency clarity now => noteEffect frequency clarity now st
  | Beat playing beat now => tickEffect playing beat now st
  | TestNote name frequency clarity now =>
      appendNote (testNote name frequency clarity now) st
  | ClearHistory => clearHistory st
  end.

Definition run (st : WidgetState) (events : list Event) : WidgetState :=
  fold_left step events st.

Definition isTestNote (ev : Event) : bool :=
  match ev with TestNote _ _ _ _ => true | _ => false end.

End Effects.

End StaffAnalyzerWidget.

(** ** utils/pitchDetection.ts: the pitch buffer *)
Module PitchBuffer.

Record PitchBuffer := {
  buffer : list PitchPoint.PitchPoint;
  maxSize : Z
}.

(** [new PitchBuffer(maxSize)]; the default [maxSize] is 250. *)
Definition create (maxSize : Z) : PitchBuffer := {| buffer := []; maxSize := maxSize |}.

(** [push] the point, then [shift] once when the buffer has outgrown
    [maxSize]. *)
Definition add (pitchPoint : PitchPoint.PitchPoint) (b : PitchBuffer) : PitchBuffer :=
  let pushed := buffer b ++ [pitchPoint] in
  if (Z.of_nat (List.length pushed) >? maxSize b)%Z
  then {| buffer := tl pushed; maxSize := maxSize b |}
  else {| buffer := pushed; maxSize := maxSize b |}.

Definition getBuffer (b : PitchBuffer) : list PitchPoint.PitchPoint := buffer b.

(** [this.buffer.slice(-count)] *)
Definition getRecentNotes (count : Z) (b : PitchBuffer) : list PitchPoint.PitchPoint :=
  Js.slice_from (buffer b) (- count).

Definition clear (b : PitchBuffer) : PitchBuffer :=
  {| buffer := []; maxSize := maxSize b |}.

Definition setMaxSize (size : Z) (b : PitchBuffer) : PitchBuffer :=
  if (Z.of_nat (List.length (buffer b)) >? size)%Z
  then {| buffer := Js.slice_from (buffer b) (- size); maxSize := size |}
  else {| buffer := buffer b; maxSize := size |}.

Definition getSize (b : PitchBuffer) : nat := List.length (buffer b).

Definition isEmpty (b : PitchBuffer) : bool := (List.length (buffer b) =? 0)%nat.

(** The object [export] returns and [import] reads; in what [import] is
    given, [notes] is [None] when the entry is missing or no array, and
    [maxSize] is [None] when the entry is missing. *)
Record BufferData := {
  notes : option (list PitchPoint.PitchPoint);
  dataMaxSize : option Z;
  dataTimestamp : option Z
}.

Definition export (now : Z) (b : PitchBuffer) : BufferData :=
  {| notes := Some (buffer b); dataMaxSize := Some (maxSize b);
     dataTimestamp := Some now |}.

Definition import (data : BufferData) (b : PitchBuffer) : PitchBuffer :=
  match notes data with
  | Some ns => {| buffer := ns; maxSize := Js.or_Z (dataMaxSize data) (maxSize b) |}
  | None => b
  end.

End PitchBuffer.

(** ** utils/pitchDetection.ts: the life cycle of the PitchDetector *)
Module PitchDetectorLifecycle.
Import UsePitchDetection.

(** The fields of the class; [None] is [null], and [dataArray] is the
    length of the sample array. *)
Record PitchDetectorState := {
  audioContext : option nat;
  analyser : option nat;
  microphone : option nat;
  dataArray : option nat;
  isDetecting : bool
}.

Definition created : PitchDetectorState :=
  {| audioContext := None; analyser := None; microphone := None;
     dataArray := None; isDetecting := false |}.

(** What the browser hands out during [initialize]: the id of the new audio
    context, the stream [getUserMedia] resolves with ([None] when it
    rejects), and the ids of the source node and of the analyser. *)
Record Grants := {
  newContext : nat;
  userMedia : option MediaStream;
  newSource : nat;
  newAnalyser : nat
}.

(** [initialize()]: the detector and the browser afterwards, and whether the
    promise resolved ([true]) or the function threw ([false]). *)
Definition initialize (g : Grants) (st : PitchDetectorState * Browser)
  : PitchDetectorState * Browser * bool :=
  let '(d, b) := st in
  (* this.audioContext = new AudioContext() *)
  let d1 := {| audioContext := Some (newContext g); analyser := analyser d;
               microphone := microphone d; dataArray := dataArray d;
               isDetecting := isDetecting d |} in
  match userMedia g with
  | None => (d1, b, false)
  | Some stream =>
      ({| audioContext := Some (newContext g); analyser := Some (newAnalyser g);
          microphone := Some (newSource g); dataArray := Some 4096%nat;
          isDetecting := isDetecting d |},
       {| liveTracks := liveTracks b ∪ list_to_set (getTracks stream);
          connectedSources := connectedSources b ∪ {[ newSource g ]};
          closedContexts := closedContexts b;
          pendingFrames := pendingFrames b |},
       true)
  end.

(** The guard and the first assignment of [startDetection]. *)
Definition startDetection (d : PitchDetectorState) : PitchDetectorState :=
  match analyser d, dataArray d with
  | Some _, Some _ =>
      if isDetecting d then d
      else {| audioContext := audioContext d; analyser := analyser d;
              microphone := microphone d; dataArray := dataArray d;
              isDetecting := true |}
  | _, _ => d
  end.

Definition stopDetection (d : PitchDetectorState) : PitchDetectorState :=
  {| audioContext := audioContext d; analyser := analyser d;
     microphone := microphone d; dataArray := dataArray d;
     isDetecting := false |}.

Definition destroy (st : PitchDetectorState * Browser) : PitchDetectorState * Browser :=
  let '(d, b) := st in
  let d := stopDetection d in
  let '(microphone1, connected1) :=
    match microphone d with
    | Some source => (None, connectedSources b ∖ {[ source ]})
    | None => (None, connectedSources b)
    end in
  let '(audioContext1, closed1) :=
    match audioContext d with
    | Some ctx => (None, closedContexts b ∪ {[ ctx ]})
    | None => (None, closedContexts b)
    end in
  ({| audioContext := audioContext1; analyser := analyser d;
      microphone := microphone1; dataArray := dataArray d;
      isDetecting := isDetecting d |},
   {| liveTracks := liveTracks b; connectedSources := connected1;
      closedContexts := closed1; pendingFrames := pendingFrames b |}).

End PitchDetectorLifecycle.

(** ** components/ui/MusicalStaff.tsx: note names on their way to the staff *)
Module MusicalStaff.
Import Types.

(** The table of [convertToABC]. *)
Definition doReMiToABC : gmap string string :=
  list_to_map
    [("Do", "C"); ("Do#", "C#"); ("Reb", "Db"); ("Re", "D"); ("Re#", "D#");
     ("Mib", "Eb"); ("Mi", "E"); ("Fa", "F"); ("Fa#", "F#"); ("Solb", "Gb");
     ("Sol", "G"); ("Sol#", "G#"); ("Lab", "Ab"); ("La", "A"); ("La#", "A#");
     ("Tib", "Bb"); ("Ti", "B")]%string.

(** [doReMiToABC[noteName] || noteName], what [convertToABC] does to the
    name in front of the octave digits. *)
Definition abcNoteName (noteName : string) : Js.JsValue :=
  Js.or_else (Js.get doReMiToABC noteName) noteName.

End MusicalStaff.


(** * Part II: the properties *)

(** ** The pitch estimator *)
Module PitchDetectorSpec.
Import PitchDetector.
Local Open Scope float_scope.

(** *** The number of a positive length is a positive finite float *)

Lemma digits2_pos_size (p : positive) : digits2_pos p = Pos.size p.
Proof. induction p; simpl; congruence. Qed.

Lemma digits2_pos_iter_xO (k p : positive) :
  digits2_pos (Pos.iter xO p k) = (digits2_pos p + k)%positive.
Proof.
  induction k using Pos.peano_ind.
  - simpl. lia.
  - rewrite Pos.iter_succ. simpl. rewrite IHk. lia.
Qed.

Lemma digits2_pos_le (p : positive) (n : Z) :
  (0 <= n)%Z -> (Zpos p < 2 ^ n)%Z -> (Zpos (digits2_pos p) <= n)%Z.
Proof.
  intros Hn Hp. rewrite digits2_pos_size.
  pose proof (Pos.size_le p) as Hs.
  assert (H2 : (2 ^ Zpos (Pos.size p) <= 2 * Zpos p)%Z).
  { rewrite <- Pos2Z.inj_pow. change (2 * Zpos p)%Z with (Zpos p~0). lia. }
  destruct (Z_le_gt_dec (Zpos (Pos.size p)) n) as [|Hgt]; [assumption|].
  assert (H : (2 ^ (n + 1) <= 2 ^ Zpos (Pos.size p))%Z)
    by (apply Z.pow_le_mono_r; lia).
  rewrite Z.pow_add_r in H by lia. lia.
Qed.

Lemma binary_round_small (p : positive) :
  (Zpos p < 2 ^ 53)%Z ->
  exists m e, binary_round prec emax false p 0 = S754_finite false m e.
Proof.
  intros Hp.
  pose proof (digits2_pos_le p 53 ltac:(lia) Hp) as Hd.
  unfold binary_round.
  assert (Hf : fexp prec emax (Zpos (digits2_pos p) + 0)
               = (Zpos (digits2_pos p) - 53)%Z)
    by (unfold fexp, emin, prec, emax; lia).
  rewrite Hf.
  assert (Hal : exists mz,
             shl_align p 0 (Zpos (digits2_pos p) - 53)
             = (mz, (Zpos (digits2_pos p) - 53)%Z)
             /\ Zpos (digits2_pos mz) = 53%Z).
  { unfold shl_align. rewrite Z.sub_0_r.
    destruct (Zpos (digits2_pos p) - 53)%Z as [|q|q] eqn:E.
    - exists p. split; [reflexivity | lia].
    - lia.
    - exists (Pos.iter xO p q). split; [reflexivity|].
      rewrite digits2_pos_iter_xO. lia. }
  destruct Hal as (mz & -> & Hmz).
  set (ez := (Zpos (digits2_pos p) - 53)%Z) in *.
  exists mz, ez.
  unfold binary_round_aux, shr_fexp. cbn [Zdigits2 shr_record_of_loc].
  assert (Hs : (fexp prec emax (Zpos (digits2_pos mz) + ez) - ez = 0)%Z)
    by (unfold fexp, emin, prec, emax; subst ez; lia).
  rewrite Hs.
  cbn [shr shr_m loc_of_shr_record round_nearest_even Zdigits2 shr_record_of_loc].
  rewrite Hs. cbn [shr shr_m].
  replace (ez <=? emax - prec)%Z with true; [reflexivity|].
  symmetry. apply Z.leb_le. unfold emax, prec. subst ez. lia.
Qed.

Lemma of_nat_finite (n : nat) :
  (0 < n)%nat -> (Z.of_nat n < 2 ^ 53)%Z ->
  exists m e, Prim2SF (of_nat n) = S754_finite false m e.
Proof.
  intros H0 H1. unfold of_nat.
  rewrite of_uint63_spec, Uint63.of_Z_spec, Z.mod_small.
  - destruct (Z.of_nat n) as [|p|p] eqn:E; try lia.
    simpl binary_normalize. apply binary_round_small. lia.
  - split; [lia|]. change Uint63.wB with (2 ^ 63)%Z.
    assert (2 ^ 53 < 2 ^ 63)%Z by (apply Z.pow_lt_mono_r; lia). lia.
Qed.

(** Zero divided by the number of a positive length is zero. *)
Lemma zero_div_of_nat (n : nat) :
  (0 < n)%nat -> (Z.of_nat n < 2 ^ 53)%Z -> 0 / of_nat n = 0.
Proof.
  intros H0 H1. destruct (of_nat_finite n H0 H1) as (m & e & Hn).
  apply Prim2SF_inj. rewrite FloatAxioms.div_spec, Hn. reflexivity.
Qed.

(** *** The sum of squares of a silent buffer *)

Lemma sumSquares_silent_from (buffer : list float) :
  silent buffer ->
  fold_left (fun rms val => rms + val * val) buffer 0 = 0.
Proof.
  induction 1 as [|v buffer Hv _ IH]; simpl; [reflexivity|].
  destruct Hv as [-> | ->]; exact IH.
Qed.

Lemma rmsGate_silent (buffer : list float) :
  silent buffer -> buffer <> [] ->
  (Z.of_nat (List.length buffer) < 2 ^ 53)%Z ->
  rmsGate buffer = true.
Proof.
  intros Hs Hne Hlen. unfold rmsGate, rmsOf, sumSquares.
  rewrite sumSquares_silent_from by assumption.
  rewrite zero_div_of_nat; [reflexivity | | assumption].
  destruct buffer; [congruence | simpl; lia].
Qed.

(** C5. A silent buffer (all samples zero) yields no pitch: [detectPitch]
    returns 0, and on every non-empty silent buffer it is the energy gate
    [rms < 0.01] that answers, before the lag loop is entered.  The length
    bound is the range of a typed array's length. *)
Theorem detectPitch_silence (sampleRate : float) (buffer : list float) :
  silent buffer ->
  (Z.of_nat (List.length buffer) < 2 ^ 53)%Z ->
  detectPitch sampleRate buffer = 0
  /\ (buffer <> [] -> rmsGate buffer = true).
Proof.
  intros Hs Hlen. split.
  - destruct buffer as [|v buffer].
    + unfold detectPitch. destruct (rmsGate []); reflexivity.
    + unfold detectPitch. rewrite rmsGate_silent; try assumption; [reflexivity|].
      discriminate.
  - intros Hne. now apply rmsGate_silent.
Qed.

Lemma detectPitch_silence_witness :
  silent [0; 0; -0; 0]
  /\ (Z.of_nat (List.length [0; 0; -0; 0]) < 2 ^ 53)%Z
  /\ detectPitch 44100 [0; 0; -0; 0] = 0
  /\ ([0; 0; -0; 0] <> [] -> rmsGate [0; 0; -0; 0] = true).
Proof.
  assert (Hs : silent [0; 0; -0; 0]).
  { unfold silent, isZero.
    repeat (constructor; [first [left; reflexivity | right; reflexivity]|]).
    constructor. }
  assert (Hl : (Z.of_nat (List.length [0; 0; -0; 0]) < 2 ^ 53)%Z)
    by (vm_compute; reflexivity).
  split; [exact Hs|]. split; [exact Hl|].
  exact (detectPitch_silence 44100 [0; 0; -0; 0] Hs Hl).
Defined.

(** C10. A buffer of fewer than two samples (length 0 or 1), whatever the
    sample is, yields 0: the lag loop has no iteration, nothing is divided
    by a lag and no sample is read. *)
Theorem detectPitch_short_buffer (sampleRate : float) (buffer : list float) :
  (List.length buffer < 2)%nat -> detectPitch sampleRate buffer = 0.
Proof.
  intros Hlen. unfold detectPitch.
  destruct (rmsGate buffer); [reflexivity|].
  destruct buffer as [|v [|w buffer]]; simpl in *; try reflexivity; lia.
Qed.

Lemma detectPitch_short_buffer_witness :
  (List.length [0.5%float] < 2)%nat /\ detectPitch 44100 [0.5] = 0.
Proof.
  assert (H : (List.length [0.5%float] < 2)%nat) by (simpl; lia).
  split; [exact H|].
  exact (detectPitch_short_buffer 44100 [0.5] H).
Defined.

(** The estimator at work: a square wave of period 4 samples is heard at a
    quarter of the sample rate, and two samples alone never give a lag. *)
Example detectPitch_square_wave :
  detectPitch 44100 [1; 1; -1; -1; 1; 1; -1; -1; 1; 1; -1; -1; 1; 1; -1; -1] = 11025.
Proof. vm_compute. reflexivity. Qed.

Example detectPitch_empty_gate : rmsGate [] = false /\ detectPitch 44100 [] = 0.
Proof. split; vm_compute; reflexivity. Qed.

End PitchDetectorSpec.

(** ** Rounding in binary64 *)
Module Binary64Facts.
Import Binary64 PitchDetectorSpec.
Local Open Scope Z_scope.


Lemma iter_pos_nat {A : Type} (f : A -> A) (p : positive) (x : A) :
  SpecFloat.iter_pos f p x = Nat.iter (Pos.to_nat p) f x.
Proof.
  revert x. induction p as [p IH | p IH |]; intros x; cbn [SpecFloat.iter_pos].
  - rewrite !IH, Pos2Nat.inj_xI.
    replace (S (2 * Pos.to_nat p)) with (Pos.to_nat p + (Pos.to_nat p + 1))%nat by lia.
    rewrite !Nat.iter_add. reflexivity.
  - rewrite !IH, Pos2Nat.inj_xO.
    replace (2 * Pos.to_nat p)%nat with (Pos.to_nat p + Pos.to_nat p)%nat by lia.
    rewrite Nat.iter_add. reflexivity.
  - reflexivity.
Qed.


(** One right shift of a non-negative mantissa halves it, and does not
    invent a round or sticky bit for an even one. *)
Lemma shr_1_spec (m : Z) (r s : bool) :
  (0 <= m)%Z ->
  shr_m (shr_1 {| shr_m := m; shr_r := r; shr_s := s |}) = (m / 2)%Z
  /\ (r = false -> s = false -> (m mod 2 = 0)%Z ->
      shr_r (shr_1 {| shr_m := m; shr_r := r; shr_s := s |}) = false
      /\ shr_s (shr_1 {| shr_m := m; shr_r := r; shr_s := s |}) = false).
Proof.
  intros Hm. destruct m as [|[p|p|]|p]; try lia; cbn [shr_1 shr_m shr_r shr_s].
  - split; [reflexivity|]. intros -> -> _. split; reflexivity.
  - split; [rewrite Pos2Z.inj_xI; Z.div_mod_to_equations; lia|].
    intros _ _ H. rewrite Pos2Z.inj_xI in H. Z.div_mod_to_equations. lia.
  - split; [rewrite Pos2Z.inj_xO; Z.div_mod_to_equations; lia|].
    intros -> -> _. split; reflexivity.
  - split; [reflexivity|]. intros _ _ H. discriminate H.
Qed.

Lemma shr_iter_spec (m : Z) (n : nat) :
  (0 <= m)%Z ->
  let mrs := Nat.iter n shr_1 {| shr_m := m; shr_r := false; shr_s := false |} in
  shr_m mrs = (m / 2 ^ Z.of_nat n)%Z
  /\ ((m mod 2 ^ Z.of_nat n = 0)%Z -> shr_r mrs = false /\ shr_s mrs = false).
Proof.
  intros Hm. induction n as [|n IH]; cbv zeta.
  - simpl. rewrite Z.div_1_r. split; [reflexivity | split; reflexivity].
  - cbv zeta in IH. rewrite Nat.iter_succ.
    destruct (Nat.iter n shr_1 {| shr_m := m; shr_r := false; shr_s := false |})
      as [q r s] eqn:E.
    cbn [shr_m shr_r shr_s] in IH. destruct IH as [Hq Hrs].
    assert (H2n : (0 < 2 ^ Z.of_nat n)%Z) by (apply Z.pow_pos_nonneg; lia).
    assert (Hq0 : (0 <= q)%Z) by (rewrite Hq; apply Z.div_pos; lia).
    destruct (shr_1_spec q r s Hq0) as [Hm1 Hrs1].
    assert (Hpow : (2 ^ Z.of_nat (S n) = 2 ^ Z.of_nat n * 2)%Z).
    { rewrite Nat2Z.inj_succ, Z.pow_succ_r by lia. lia. }
    split.
    + rewrite Hm1, Hq, Hpow. rewrite Z.div_div by lia. reflexivity.
    + intros Hz. rewrite Hpow in Hz.
      apply Z.div_exact in Hz; [|lia].
      set (k := (m / (2 ^ Z.of_nat n * 2))%Z) in Hz.
      assert (Hmk : m = (k * 2 * 2 ^ Z.of_nat n)%Z) by lia.
      assert (Hz' : (m mod 2 ^ Z.of_nat n = 0)%Z)
        by (rewrite Hmk; apply Z.mod_mul; lia).
      destruct (Hrs Hz') as [-> ->]. apply Hrs1; try reflexivity.
      rewrite Hq, Hmk, Z.div_mul by lia. apply Z.mod_mul. lia.
Qed.

Lemma round_nearest_even_bounds (q : Z) (l : location) :
  (q <= round_nearest_even q l <= q + 1)%Z.
Proof.
  destruct l as [|[| |]]; cbn [round_nearest_even]; try lia.
  destruct (Z.even q); lia.
Qed.

(** What a right shift by [n] leaves of a mantissa, after rounding to
    nearest: at most [K] when the mantissa is at most [K * 2 ^ n]. *)
Lemma shr_round_le (m : positive) (e : Z) (p : positive) (K : Z) :
  (Zpos m <= K * 2 ^ Zpos p)%Z ->
  let mrs := fst (shr {| shr_m := Zpos m; shr_r := false; shr_s := false |} e (Zpos p)) in
  (0 <= round_nearest_even (shr_m mrs) (loc_of_shr_record mrs) <= K)%Z.
Proof.
  intros HK. cbv zeta. cbn [shr fst]. rewrite iter_pos_nat.
  pose proof (shr_iter_spec (Zpos m) (Pos.to_nat p) ltac:(lia)) as H.
  cbv zeta in H. rewrite positive_nat_Z in H.
  destruct (Nat.iter (Pos.to_nat p) shr_1 _) as [q r s].
  cbn [shr_m shr_r shr_s] in H. destruct H as [Hq Hrs].
  cbn [shr_m].
  assert (H2n : (0 < 2 ^ Zpos p)%Z) by (apply Z.pow_pos_nonneg; lia).
  pose proof (round_nearest_even_bounds q
                (loc_of_shr_record {| shr_m := q; shr_r := r; shr_s := s |})) as Hb.
  assert (Hq0 : (0 <= q)%Z) by (rewrite Hq; apply Z.div_pos; lia).
  split; [lia|].
  destruct (Z.eq_dec (Zpos m mod 2 ^ Zpos p) 0) as [Hz | Hnz].
  - destruct (Hrs Hz) as [-> ->]. cbn [loc_of_shr_record round_nearest_even].
    rewrite Hq. Z.div_mod_to_equations. nia.
  - assert (q < K)%Z; [|lia].
    rewrite Hq. Z.div_mod_to_equations. nia.
Qed.


(** A finite number of magnitude at most [b * 2 ^ j], or a zero. *)
Definition within (b j : Z) (x : spec_float) : Prop :=
  match x with
  | S754_zero _ => True
  | S754_finite _ m e => (e <= j)%Z /\ (Zpos m <= b * 2 ^ (j - e))%Z
  | _ => False
  end.

Lemma pow2_split (a c : Z) : (0 <= a)%Z -> (0 <= c)%Z -> (2 ^ (a + c) = 2 ^ a * 2 ^ c)%Z.
Proof. intros. apply Z.pow_add_r; assumption. Qed.

Lemma digits_of_bound (m : positive) (b k : Z) :
  (0 < b < 2 ^ 53)%Z -> (0 <= k)%Z -> (Zpos m <= b * 2 ^ k)%Z ->
  (Zpos (digits2_pos m) <= 53 + k)%Z.
Proof.
  intros Hb Hk Hm. apply digits2_pos_le; [lia|].
  rewrite pow2_split by lia.
  assert (0 < 2 ^ k)%Z by (apply Z.pow_pos_nonneg; lia). nia.
Qed.

(** The second shift of [binary_round_aux], on a mantissa within the
    bound, stays within it. *)
Lemma shr_final_within (sx : bool) (r e b j : Z) :
  (0 <= r)%Z -> (-1074 <= e <= j)%Z -> (j <= 971)%Z -> (0 < b < 2 ^ 53)%Z ->
  (r <= b * 2 ^ (j - e))%Z ->
  within b j
    (let '(mrs, e') := shr_fexp prec emax r e loc_Exact in
     match shr_m mrs with
     | 0%Z => S754_zero sx
     | Zpos m => if (e' <=? emax - prec)%Z then S754_finite sx m e'
                 else S754_infinity sx
     | Zneg _ => S754_nan
     end).
Proof.
  intros Hr He Hj Hb Hle. unfold shr_fexp. cbn [shr_record_of_loc].
  destruct r as [|r|r]; [ | | lia].
  - cbn [Zdigits2].
    destruct (fexp prec emax (0 + e) - e)%Z eqn:E0;
      [ | exfalso; unfold fexp, emin, prec, emax in E0; lia | ];
      cbn [shr shr_m within]; exact I.
  - cbn [Zdigits2].
    pose proof (digits_of_bound r b (j - e) Hb ltac:(lia) Hle) as Hd.
    destruct (fexp prec emax (Zpos (digits2_pos r) + e) - e)%Z as [|p|p] eqn:En.
    + cbn [shr shr_m].
      replace (e <=? emax - prec)%Z with true
        by (symmetry; apply Z.leb_le; unfold emax, prec; lia).
      cbn [within]. split; [lia | assumption].
    + cbn [shr]. rewrite iter_pos_nat.
      pose proof (shr_iter_spec (Zpos r) (Pos.to_nat p) ltac:(lia)) as H.
      cbv zeta in H. rewrite positive_nat_Z in H. destruct H as [Hq _].
      rewrite Hq.
      assert (H2p : (0 < 2 ^ Zpos p)%Z) by (apply Z.pow_pos_nonneg; lia).
      assert (He2 : (e + Zpos p <= j)%Z)
        by (unfold fexp, emin, prec, emax in En; lia).
      assert (Hq2 : (Zpos r / 2 ^ Zpos p <= b * 2 ^ (j - (e + Zpos p)))%Z).
      { apply Z.div_le_upper_bound; [assumption|].
        rewrite Z.mul_comm, <- Z.mul_assoc, <- pow2_split by lia.
        replace (j - (e + Zpos p) + Zpos p)%Z with (j - e)%Z by lia. assumption. }
      pose proof (Z.div_pos (Zpos r) (2 ^ Zpos p) ltac:(lia) H2p) as Hq0.
      destruct (Zpos r / 2 ^ Zpos p)%Z as [|q|q]; [exact I | | lia].
      replace (e + Zpos p <=? emax - prec)%Z with true
        by (symmetry; apply Z.leb_le; unfold emax, prec; lia).
      cbn [within]. split; assumption.
    + cbn [shr shr_m].
      replace (e <=? emax - prec)%Z with true
        by (symmetry; apply Z.leb_le; unfold emax, prec; lia).
      cbn [within]. split; [lia | assumption].
Qed.

(** Rounding to nearest never carries a magnitude past a bound [b * 2 ^ j]
    that is itself a binary64 number. *)
Lemma binary_round_aux_within (sx : bool) (mx : positive) (ex b j : Z) :
  (-1074 <= j <= 971)%Z -> (0 < b < 2 ^ 53)%Z -> (ex <= j)%Z ->
  (Zpos mx <= b * 2 ^ (j - ex))%Z ->
  within b j (binary_round_aux prec emax sx (Zpos mx) ex loc_Exact).
Proof.
  intros Hj Hb Hex Hmx.
  pose proof (digits_of_bound mx b (j - ex) Hb ltac:(lia) Hmx) as Hd.
  unfold binary_round_aux.
  unfold shr_fexp at 1. cbn [Zdigits2 shr_record_of_loc].
  set (E1 := fexp prec emax (Zpos (digits2_pos mx) + ex)).
  assert (HE1 : (-1074 <= E1 <= j)%Z)
    by (subst E1; unfold fexp, emin, prec, emax; lia).
  destruct (E1 - ex)%Z as [|p|p] eqn:En.
  - cbn [shr shr_m loc_of_shr_record round_nearest_even].
    apply shr_final_within; try assumption; lia.
  - pose proof (shr_round_le mx ex p (b * 2 ^ (j - E1))) as Hr.
    cbv zeta in Hr.
    destruct (shr {| shr_m := Zpos mx; shr_r := false; shr_s := false |} ex (Zpos p))
      as [mrs e'] eqn:Es.
    assert (He' : e' = E1) by (cbn [shr] in Es; injection Es as _ <-; lia).
    subst e'. cbn [fst] in Hr.
    assert (HK : (Zpos mx <= b * 2 ^ (j - E1) * 2 ^ Zpos p)%Z).
    { rewrite <- Z.mul_assoc, <- pow2_split by lia.
      replace (j - E1 + Zpos p)%Z with (j - ex)%Z by lia. exact Hmx. }
    specialize (Hr HK).
    apply shr_final_within; try assumption; lia.
  - cbn [shr shr_m loc_of_shr_record round_nearest_even].
    apply shr_final_within; try assumption; lia.
Qed.



Lemma iter_xO (m d : positive) : Zpos (Pos.iter xO m d) = (Zpos m * 2 ^ Zpos d)%Z.
Proof.
  induction d as [|d IH] using Pos.peano_ind.
  - simpl. lia.
  - rewrite Pos.iter_succ, Pos2Z.inj_xO, IH, Pos2Z.inj_succ, Z.pow_succ_r by lia. lia.
Qed.

(** [shl_align] keeps the value and lowers the exponent to the one asked
    for, when that one is lower. *)
Lemma shl_align_spec (m : positive) (e e' : Z) :
  (snd (shl_align m e e') = Z.min e e')%Z
  /\ (Zpos (fst (shl_align m e e')) = Zpos m * 2 ^ (e - Z.min e e'))%Z.
Proof.
  unfold shl_align. destruct (e' - e)%Z as [|d|d] eqn:E; cbn [fst snd].
  - replace (Z.min e e') with e by lia. rewrite Z.sub_diag. simpl. lia.
  - replace (Z.min e e') with e by lia. rewrite Z.sub_diag. simpl. lia.
  - replace (Z.min e e') with e' by lia. split; [reflexivity|].
    rewrite iter_xO. f_equal. f_equal. lia.
Qed.

Lemma binary_round_within (sx : bool) (mx : positive) (ex b j : Z) :
  (-1074 <= j <= 971)%Z -> (0 < b < 2 ^ 53)%Z -> (ex <= j)%Z ->
  (Zpos mx <= b * 2 ^ (j - ex))%Z ->
  within b j (binary_round prec emax sx mx ex).
Proof.
  intros Hj Hb Hex Hmx. unfold binary_round.
  pose proof (shl_align_spec mx ex (fexp prec emax (Zpos (digits2_pos mx) + ex)))
    as [He Hm].
  destruct (shl_align mx ex (fexp prec emax (Zpos (digits2_pos mx) + ex)))
    as [mz ez]. cbn [fst snd] in He, Hm.
  apply binary_round_aux_within; try assumption; [lia|].
  rewrite Hm. subst ez.
  set (z := Z.min ex (fexp prec emax (Zpos (digits2_pos mx) + ex))).
  replace (j - z)%Z with ((j - ex) + (ex - z))%Z by lia.
  rewrite pow2_split by lia.
  assert (0 < 2 ^ (ex - z))%Z by (apply Z.pow_pos_nonneg; lia). nia.
Qed.

Lemma binary_normalize_within (m e b j : Z) (szero : bool) :
  (-1074 <= j <= 971)%Z -> (0 < b < 2 ^ 53)%Z -> (e <= j)%Z ->
  (Z.abs m <= b * 2 ^ (j - e))%Z ->
  within b j (binary_normalize prec emax m e szero).
Proof.
  intros Hj Hb He Hm. destruct m as [|m|m]; cbn [binary_normalize].
  - exact I.
  - apply binary_round_within; assumption.
  - apply binary_round_within; assumption.
Qed.

(** The binary64 form of a positive integer below 2^53: exact, with an
    exponent between -52 and 0. *)
Lemma binary_round_integer (sx : bool) (p : positive) :
  (Zpos p < 2 ^ 53)%Z ->
  exists m e,
    binary_round prec emax sx p 0 = S754_finite sx m e
    /\ (-52 <= e <= 0)%Z /\ (Zpos m = Zpos p * 2 ^ (- e))%Z.
Proof.
  intros Hp.
  pose proof (digits2_pos_le p 53 ltac:(lia) Hp) as Hd.
  assert (Hd1 : (1 <= Zpos (digits2_pos p))%Z) by lia.
  unfold binary_round.
  assert (Hf : fexp prec emax (Zpos (digits2_pos p) + 0)
               = (Zpos (digits2_pos p) - 53)%Z)
    by (unfold fexp, emin, prec, emax; lia).
  rewrite Hf.
  pose proof (shl_align_spec p 0 (Zpos (digits2_pos p) - 53)) as [He Hm].
  replace (Z.min 0 (Zpos (digits2_pos p) - 53)) with (Zpos (digits2_pos p) - 53)%Z
    in He, Hm by lia.
  destruct (shl_align p 0 (Zpos (digits2_pos p) - 53)) as [mz ez].
  cbn [fst snd] in He, Hm. subst ez.
  set (ez := (Zpos (digits2_pos p) - 53)%Z) in *.
  assert (Hmz : Zpos (digits2_pos mz) = 53%Z).
  { destruct (Z.eq_dec ez 0) as [E0 | Hne].
    - rewrite E0 in Hm. simpl in Hm.
      assert (mz = p) by lia. subst mz. lia.
    - assert (Hsh : mz = Pos.iter xO p (Z.to_pos (- ez))).
      { apply Pos2Z.inj. rewrite iter_xO, Z2Pos.id by lia.
        rewrite Hm. replace (0 - ez)%Z with (- ez)%Z by lia. reflexivity. }
      rewrite Hsh, digits2_pos_iter_xO, Pos2Z.inj_add, Z2Pos.id by lia. lia. }
  exists mz, ez. split; [|split; [lia | rewrite Hm; f_equal; f_equal; lia]].
  unfold binary_round_aux, shr_fexp. cbn [Zdigits2 shr_record_of_loc].
  assert (Hs : (fexp prec emax (Zpos (digits2_pos mz) + ez) - ez = 0)%Z)
    by (unfold fexp, emin, prec, emax; lia).
  rewrite Hs.
  cbn [shr shr_m loc_of_shr_record round_nearest_even Zdigits2 shr_record_of_loc].
  rewrite Hs. cbn [shr shr_m].
  replace (ez <=? emax - prec)%Z with true; [reflexivity|].
  symmetry. apply Z.leb_le. unfold emax, prec. lia.
Qed.
Lemma of_Z_zero : of_Z 0 = 0%float.
Proof. reflexivity. Qed.

(** The number of a non-zero integer below 2^53 in magnitude. *)
Lemma of_Z_spec (n : Z) :
  n <> 0%Z -> (Z.abs n < 2 ^ 53)%Z ->
  exists m e,
    Prim2SF (of_Z n) = S754_finite (n <? 0)%Z m e
    /\ (-52 <= e <= 0)%Z /\ (Zpos m = Z.abs n * 2 ^ (- e))%Z.
Proof.
  intros Hn Hlt.
  assert (Hw : (2 ^ 53 < Uint63.wB)%Z) by (vm_compute; reflexivity).
  unfold of_Z. destruct (Z.ltb_spec n 0) as [Hneg | Hpos].
  - rewrite FloatAxioms.opp_spec, FloatAxioms.of_uint63_spec, Uint63.of_Z_spec, Z.mod_small by lia.
    destruct n as [|p|p]; try lia.
    change (- Z.neg p) with (Zpos p). cbn [binary_normalize].
    destruct (binary_round_integer false p ltac:(lia)) as (m & e & -> & He & Hm).
    exists m, e. cbn [SFopp negb]. repeat split; lia.
  - rewrite FloatAxioms.of_uint63_spec, Uint63.of_Z_spec, Z.mod_small by lia.
    destruct n as [|p|p]; try lia. cbn [binary_normalize].
    destruct (binary_round_integer false p ltac:(lia)) as (m & e & -> & He & Hm).
    exists m, e. repeat split; lia.
Qed.

(** The mantissa of a number has at most 53 digits, and exactly 53 above
    the smallest exponent. *)
Lemma valid_mantissa (x : float) (s : bool) (m : positive) (e : Z) :
  Prim2SF x = S754_finite s m e ->
  (Zpos m < 2 ^ 53)%Z /\ (-1074 <= e)%Z /\ ((-1074 < e)%Z -> (2 ^ 52 <= Zpos m)%Z).
Proof.
  intros Hx. pose proof (Prim2SF_valid x) as Hv. rewrite Hx in Hv.
  cbn [valid_binary] in Hv. unfold bounded, canonical_mantissa in Hv.
  apply andb_prop in Hv. destruct Hv as [Hc _]. apply Z.eqb_eq in Hc.
  rewrite digits2_pos_size in Hc.
  pose proof (Pos.size_gt m) as Hgt. pose proof (Pos.size_le m) as Hle.
  assert (Hgt' : (Zpos m < 2 ^ Zpos (Pos.size m))%Z)
    by (rewrite <- Pos2Z.inj_pow; lia).
  assert (Hle' : (2 ^ Zpos (Pos.size m) <= 2 * Zpos m)%Z).
  { rewrite <- Pos2Z.inj_pow. change (2 * Zpos m)%Z with (Zpos m~0). lia. }
  unfold fexp, emin, prec, emax in Hc.
  repeat split.
  - assert (2 ^ Zpos (Pos.size m) <= 2 ^ 53)%Z by (apply Z.pow_le_mono_r; lia). lia.
  - lia.
  - intros He. replace (Zpos (Pos.size m)) with 53%Z in Hle' by lia.
    change (2 ^ 53)%Z with (2 * 2 ^ 52)%Z in Hle'. lia.
Qed.

(** The integer [Math.round] rounds a fractional number to. *)
Definition nearest (s : bool) (m : positive) (e : Z) : Z :=
  ((cond_Zopp s (Zpos m) + 2 ^ (- e - 1)) / 2 ^ (- e))%Z.

Lemma nearest_spec (s : bool) (m : positive) (e : Z) :
  (e < 0)%Z ->
  let P := (2 ^ (- e - 1))%Z in
  (0 < P)%Z /\ (2 ^ (- e) = 2 * P)%Z
  /\ (nearest s m e * (2 * P) <= cond_Zopp s (Zpos m) + P < nearest s m e * (2 * P) + 2 * P)%Z.
Proof.
  intros He P.
  assert (HP : (0 < P)%Z) by (apply Z.pow_pos_nonneg; lia).
  assert (H2 : (2 ^ (- e) = 2 * P)%Z).
  { subst P. replace (- e)%Z with (1 + (- e - 1))%Z at 1 by lia.
    rewrite pow2_split by lia. reflexivity. }
  split; [exact HP|]. split; [exact H2|].
  unfold nearest. rewrite H2. fold P.
  pose proof (Z.div_mod (cond_Zopp s (Zpos m) + P) (2 * P) ltac:(lia)) as Hdm.
  pose proof (Z.mod_pos_bound (cond_Zopp s (Zpos m) + P) (2 * P) ltac:(lia)) as Hmb.
  lia.
Qed.

Lemma Math_round_fractional (x : float) (s : bool) (m : positive) (e : Z) :
  Prim2SF x = S754_finite s m e -> (e < 0)%Z ->
  Math_round x
  = if (nearest s m e =? 0)%Z then (if s then (-0)%float else 0%float)
    else of_Z (nearest s m e).
Proof.
  intros Hx He. unfold Math_round. rewrite Hx.
  destruct (Z.leb_spec 0 e); [lia | reflexivity].
Qed.

Lemma Prim2SF_signed_zero (s : bool) :
  Prim2SF (if s then (-0)%float else 0%float) = S754_zero s.
Proof. destruct s; reflexivity. Qed.

(** A number and its rounding differ by half a unit at most. *)
Lemma sub_round_within (x : float) (s : bool) (m : positive) (e : Z) :
  Prim2SF x = S754_finite s m e -> (e < 0)%Z ->
  within 1 (-1) (Prim2SF (x - Math_round x)%float).
Proof.
  intros Hx He.
  destruct (valid_mantissa x s m e Hx) as (Hm53 & _ & _).
  destruct (nearest_spec s m e He) as (HP & H2P & Hn). cbv zeta in HP, H2P, Hn.
  set (P := (2 ^ (- e - 1))%Z) in *.
  set (n := nearest s m e) in *.
  assert (Ha : (Z.abs (cond_Zopp s (Zpos m)) = Zpos m)%Z) by (destruct s; simpl; lia).
  set (a := cond_Zopp s (Zpos m)) in *.
  rewrite FloatAxioms.sub_spec, (Math_round_fractional x s m e Hx He), Hx. fold n.
  destruct (Z.eqb_spec n 0) as [Hz | Hnz].
  - rewrite Prim2SF_signed_zero. cbn [SF64sub SFsub within].
    split; [lia|]. replace (-1 - e)%Z with (- e - 1)%Z by lia. fold P. lia.
  - assert (Hn52 : (Z.abs n < 2 ^ 53)%Z).
    { change (2 ^ 53)%Z with 9007199254740992%Z in *. nia. }
    destruct (of_Z_spec n Hnz Hn52) as (mr & er & -> & Her & Hmr).
    cbn [SF64sub SFsub].
    set (ez := Z.min e er).
    destruct (shl_align_spec m e ez) as [_ Hm1].
    destruct (shl_align_spec mr er ez) as [_ Hm2].
    replace (Z.min e ez) with ez in Hm1 by lia.
    replace (Z.min er ez) with ez in Hm2 by lia.
    rewrite Hm1, Hm2.
    apply binary_normalize_within; try lia.
    set (Q := (2 ^ (e - ez))%Z).
    assert (HQ : (0 < Q)%Z) by (apply Z.pow_pos_nonneg; lia).
    assert (Hr : (Zpos mr * 2 ^ (er - ez) = Z.abs n * (2 * P * Q))%Z).
    { rewrite Hmr, <- Z.mul_assoc, <- pow2_split by lia.
      replace (- er + (er - ez))%Z with (- e + (e - ez))%Z by lia.
      rewrite pow2_split, H2P by lia. reflexivity. }
    assert (Hpow : (2 ^ (-1 - ez) = P * Q)%Z).
    { subst P Q. rewrite <- pow2_split by lia. f_equal. lia. }
    rewrite Hpow.
    assert (Hdiff : (cond_Zopp s (Zpos m * Q) - cond_Zopp (n <? 0)%Z (Zpos mr * 2 ^ (er - ez))
                     = (a - n * (2 * P)) * Q)%Z).
    { rewrite Hr. subst a. destruct s, (Z.ltb_spec n 0); cbn [cond_Zopp]; lia. }
    rewrite Hdiff, Z.abs_mul, (Z.abs_eq Q) by lia.
    assert (Z.abs (a - n * (2 * P)) <= P)%Z by lia. nia.
Qed.

(** A hundred times a number of magnitude at most 1/2 has magnitude at
    most 50, also after rounding. *)
Lemma mul100_within (d : float) :
  within 1 (-1) (Prim2SF d) -> within 25 1 (Prim2SF (d * 100)%float).
Proof.
  intros Hd. rewrite FloatAxioms.mul_spec.
  change (Prim2SF 100%float) with (S754_finite false 7036874417766400 (-46)).
  destruct (Prim2SF d) as [s | s | | s m e]; cbn [within] in Hd; try contradiction.
  - exact I.
  - destruct Hd as [He Hm]. cbn [SF64mul SFmul].
    apply binary_round_aux_within; try lia.
    rewrite Pos2Z.inj_mul.
    replace (1 - (e + -46))%Z with (48 + (-1 - e))%Z by lia.
    rewrite pow2_split by lia.
    assert (0 < 2 ^ (-1 - e))%Z by (apply Z.pow_pos_nonneg; lia).
    change (Zpos 7036874417766400) with (25 * 2 ^ 48)%Z. nia.
Qed.

(** A number of magnitude at most 50 rounds to an integer of magnitude at
    most 50 (or to the negative zero). *)
Lemma Math_round_small (y : float) :
  within 25 1 (Prim2SF y) ->
  exists n, (-50 <= n <= 50)%Z /\ (Math_round y = of_Z n \/ Math_round y = (-0)%float).
Proof.
  intros Hy. destruct (Prim2SF y) as [s | s | | s m e] eqn:E;
    cbn [within] in Hy; try contradiction.
  - exists 0%Z. split; [lia|]. unfold Math_round. rewrite E.
    rewrite <- (SF2Prim_Prim2SF y), E. destruct s; [right | left]; reflexivity.
  - destruct Hy as [He Hm].
    destruct (valid_mantissa y s m e E) as (_ & _ & Hnorm).
    destruct (Z.leb_spec 0 e) as [Hpos | Hneg].
    + exfalso. specialize (Hnorm ltac:(lia)).
      assert (2 ^ (1 - e) <= 2 ^ 1)%Z by (apply Z.pow_le_mono_r; lia).
      change (2 ^ 52)%Z with 4503599627370496%Z in Hnorm.
      change (2 ^ 1)%Z with 2%Z in *. nia.
    + rewrite (Math_round_fractional y s m e E Hneg).
      destruct (nearest_spec s m e Hneg) as (HP & H2P & Hn). cbv zeta in HP, H2P, Hn.
      set (P := (2 ^ (- e - 1))%Z) in *.
      set (n := nearest s m e) in *.
      assert (Hpow : (2 ^ (1 - e) = 4 * P)%Z).
      { subst P. replace (1 - e)%Z with (2 + (- e - 1))%Z by lia.
        rewrite pow2_split by lia. reflexivity. }
      rewrite Hpow in Hm.
      assert (Hn50 : (-50 <= n <= 50)%Z) by (destruct s; cbn [cond_Zopp] in Hn; nia).
      destruct (Z.eqb_spec n 0) as [Hz | Hnz].
      * exists 0%Z. split; [lia|]. destruct s; [right | left]; reflexivity.
      * exists n. split; [exact Hn50 | left; reflexivity].
Qed.

Lemma is_finite_spec (x : float) :
  is_finite x
  = match Prim2SF x with
    | S754_zero _ | S754_finite _ _ _ => true
    | _ => false
    end.
Proof.
  unfold is_finite, is_nan, is_infinity.
  rewrite !FloatAxioms.eqb_spec, FloatAxioms.abs_spec.
  change (Prim2SF infinity) with (S754_infinity false).
  destruct (Prim2SF x) as [s | s | | s m e]; try reflexivity.
  - destruct s; reflexivity.
  - unfold SFeqb, SFcompare. rewrite Z.compare_refl, Pos.compare_cont_refl.
    destruct s; reflexivity.
Qed.

(** The cents formula of both note mappers. *)
Definition centsOf (s : float) : float :=
  Math_round ((s - Math_round s) * 100)%float.

(** The cents formula [Math.round((s - Math.round(s)) * 100)] on a finite
    semitone count [s] is an integer between -50 and 50; on an infinite one,
    or on NaN, it is NaN. *)
Lemma centsOf_range (s : float) :
  (is_finite s = true ->
   exists n, (-50 <= n <= 50)%Z /\ (centsOf s = of_Z n \/ centsOf s = (-0)%float))
  /\ (is_finite s = false -> centsOf s = nan).
Proof.
  rewrite is_finite_spec. unfold centsOf.
  destruct (Prim2SF s) as [sg | sg | | sg m e] eqn:E; split; try discriminate; intros _.
  - (* a zero *)
    apply Math_round_small, mul100_within.
    unfold Math_round at 1. rewrite E, FloatAxioms.sub_spec, E. destruct sg; exact I.
  - (* an infinity *)
    apply Prim2SF_inj. unfold Math_round at 2. rewrite E.
    assert (Hd : Prim2SF (s - s)%float = S754_nan)
      by (rewrite FloatAxioms.sub_spec, E; destruct sg; reflexivity).
    assert (Hy : Prim2SF ((s - s) * 100)%float = S754_nan)
      by (rewrite FloatAxioms.mul_spec, Hd; reflexivity).
    unfold Math_round. rewrite Hy. exact Hy.
  - (* NaN *)
    apply Prim2SF_inj. unfold Math_round at 2. rewrite E.
    assert (Hd : Prim2SF (s - s)%float = S754_nan)
      by (rewrite FloatAxioms.sub_spec, E; reflexivity).
    assert (Hy : Prim2SF ((s - s) * 100)%float = S754_nan)
      by (rewrite FloatAxioms.mul_spec, Hd; reflexivity).
    unfold Math_round. rewrite Hy. exact Hy.
  - (* a finite number *)
    apply Math_round_small, mul100_within.
    destruct (Z.leb_spec 0 e) as [Hint | Hfrac].
    + unfold Math_round. rewrite E.
      destruct (Z.leb_spec 0 e); [|lia].
      rewrite FloatAxioms.sub_spec, E. cbn [SF64sub SFsub].
      replace (cond_Zopp sg (Zpos (fst (shl_align m e (Z.min e e))))
               - cond_Zopp sg (Zpos (fst (shl_align m e (Z.min e e)))))%Z
        with 0%Z by lia.
      exact I.
    + exact (sub_round_within s sg m e E Hfrac).
Qed.

(** *** Remainders of rounded numbers *)

(** A number without fractional part, an infinity or NaN. *)
Definition integral (x : spec_float) : Prop :=
  match x with
  | S754_finite _ m e =>
      (0 <= e)%Z \/ ((-52 <= e)%Z /\ (Zpos m mod 2 ^ (- e) = 0)%Z)
  | _ => True
  end.

Lemma Math_round_integral (x : float) : integral (Prim2SF (Math_round x)).
Proof.
  destruct (Prim2SF x) as [s | s | | s m e] eqn:E.
  - unfold Math_round. rewrite E, E. exact I.
  - unfold Math_round. rewrite E, E. exact I.
  - unfold Math_round. rewrite E, E. exact I.
  - destruct (Z.leb_spec 0 e) as [Hint | Hfrac].
    + unfold Math_round. rewrite E. destruct (Z.leb_spec 0 e); [|lia].
      rewrite E. left. assumption.
    + rewrite (Math_round_fractional x s m e E Hfrac).
      destruct (valid_mantissa x s m e E) as (Hm53 & _ & _).
      destruct (nearest_spec s m e Hfrac) as (HP & H2P & Hn). cbv zeta in HP, H2P, Hn.
      destruct (Z.eqb_spec (nearest s m e) 0) as [Hz | Hnz].
      * rewrite Prim2SF_signed_zero. exact I.
      * assert (Hn52 : (Z.abs (nearest s m e) < 2 ^ 53)%Z).
        { assert (Z.abs (cond_Zopp s (Zpos m)) = Zpos m)%Z by (destruct s; simpl; lia).
          change (2 ^ 53)%Z with 9007199254740992%Z in *. nia. }
        destruct (of_Z_spec _ Hnz Hn52) as (mr & er & -> & Her & Hmr).
        right. split; [lia|]. rewrite Hmr. apply Z.mod_mul.
        apply Z.pow_nonzero; lia.
Qed.

Lemma Math_round_finite (x : float) : is_finite (Math_round x) = is_finite x.
Proof.
  rewrite !is_finite_spec.
  destruct (Prim2SF x) as [s | s | | s m e] eqn:E;
    try (unfold Math_round; rewrite E, E; reflexivity).
  destruct (Z.leb_spec 0 e) as [Hint | Hfrac].
  - unfold Math_round. rewrite E. destruct (Z.leb_spec 0 e); [|lia].
    rewrite E. reflexivity.
  - rewrite (Math_round_fractional x s m e E Hfrac).
    destruct (valid_mantissa x s m e E) as (Hm53 & _ & _).
    destruct (nearest_spec s m e Hfrac) as (HP & H2P & Hn). cbv zeta in HP, H2P, Hn.
    destruct (Z.eqb_spec (nearest s m e) 0) as [Hz | Hnz].
    + rewrite Prim2SF_signed_zero. reflexivity.
    + assert (Hn52 : Z.abs (nearest s m e) < 2 ^ 53).
      { assert (Z.abs (cond_Zopp s (Zpos m)) = Zpos m) by (destruct s; simpl; lia).
        change (2 ^ 53) with 9007199254740992 in *. nia. }
      destruct (of_Z_spec _ Hnz Hn52) as (mr & er & -> & _). reflexivity.
Qed.

(** What [x % 12] can be for an integral [x]: NaN, or one of these. *)
Definition finiteRemainders : list float :=
  (-0)%float
  :: map of_Z [-11; -10; -9; -8; -7; -6; -5; -4; -3; -2; -1; 0;
               1; 2; 3; 4; 5; 6; 7; 8; 9; 10; 11]%Z.

Definition remainders : list float := nan :: finiteRemainders.

Lemma normalize_remainder (s : bool) (k c : Z) :
  (1 <= k <= 11)%Z -> (49 <= c <= 52)%Z ->
  SF2Prim (binary_normalize prec emax (cond_Zopp s (k * 2 ^ c)) (- c) false)
  = of_Z (cond_Zopp s k).
Proof.
  intros Hk Hc.
  assert (Hk' : In k [1; 2; 3; 4; 5; 6; 7; 8; 9; 10; 11]%Z) by (simpl; lia).
  assert (Hc' : In c [49; 50; 51; 52]%Z) by (simpl; lia).
  simpl in Hk', Hc'.
  repeat (destruct Hc' as [<- | Hc']; [|]); try contradiction;
    repeat (destruct Hk' as [<- | Hk']; [|]); try contradiction;
    destruct s; vm_compute; reflexivity.
Qed.

(** The remainder by 12 of an integral number is an integer between -11 and
    11 with the sign of the number, and NaN for an infinity or NaN. *)
Lemma rem12_integral (x : float) :
  integral (Prim2SF x) ->
  (is_finite x = true -> In (rem x 12) finiteRemainders)
  /\ (is_finite x = false -> rem x 12 = nan).
Proof.
  intros Hx. rewrite is_finite_spec. unfold rem.
  change (Prim2SF 12%float) with (S754_finite false 6755399441055744 (-49)).
  destruct (Prim2SF x) as [s | s | | s m e] eqn:E;
    (split; [intros Hf; try discriminate Hf | intros Hf; try discriminate Hf]);
    try reflexivity.
  - rewrite <- (SF2Prim_Prim2SF x), E. destruct s; vm_compute; tauto.
  - cbn [integral] in Hx.
    set (z := Z.min e (-49)).
    assert (Hz : (-52 <= z <= -49)%Z) by lia.
    assert (HV : exists V, (0 < V)%Z /\ (Zpos m * 2 ^ (e - z) = V * 2 ^ (- z))%Z).
    { destruct (Z.leb_spec 0 e) as [Hpos | Hneg];
        [|destruct Hx as [Hpos | [Hlo Hmod]]; [lia|]].
      - exists (Zpos m * 2 ^ e)%Z. split.
        + assert (0 < 2 ^ e)%Z by (apply Z.pow_pos_nonneg; lia). lia.
        + replace (e - z)%Z with (e + - z)%Z by lia.
          rewrite pow2_split by lia. ring.
      - assert (H2 : (0 < 2 ^ (- e))%Z) by (apply Z.pow_pos_nonneg; lia).
        apply Z.div_exact in Hmod; [|lia].
        exists (Zpos m / 2 ^ (- e))%Z. split.
        + nia.
        + replace (- z)%Z with (- e + (e - z))%Z by lia.
          rewrite pow2_split by lia. rewrite Hmod at 1. ring. }
    destruct HV as (V & HV0 & HV).
    rewrite HV.
    replace (Zpos 6755399441055744 * 2 ^ (-49 - z))%Z with (12 * 2 ^ (- z))%Z.
    2:{ change (Zpos 6755399441055744) with (12 * 2 ^ 49)%Z.
        replace (- z)%Z with (49 + (-49 - z))%Z by lia.
        rewrite pow2_split by lia. ring. }
    assert (H2z : (0 < 2 ^ (- z))%Z) by (apply Z.pow_pos_nonneg; lia).
    rewrite Z.rem_mod_nonneg, Z.mul_mod_distr_r by lia.
    pose proof (Z.mod_pos_bound V 12 ltac:(lia)) as Hk.
    destruct (Z.eqb_spec (V mod 12 * 2 ^ (- z)) 0) as [H0 | Hn0].
    + destruct s; vm_compute; tauto.
    + assert (Hk1 : (1 <= V mod 12 <= 11)%Z) by nia.
      replace z with (- (- z))%Z at 2 by lia.
      rewrite normalize_remainder by lia.
      set (k := (V mod 12)%Z) in *.
      assert (Hk' : In k [1; 2; 3; 4; 5; 6; 7; 8; 9; 10; 11]%Z) by (simpl; lia).
      simpl in Hk'.
      repeat (destruct Hk' as [<- | Hk']; [destruct s; vm_compute; tauto|]).
      contradiction.
Qed.

Lemma rem12_remainders (x : float) :
  integral (Prim2SF x) -> In (rem x 12) remainders.
Proof.
  intros Hx. destruct (rem12_integral x Hx) as [Hf Hn].
  destruct (is_finite x) eqn:E.
  - right. now apply Hf.
  - left. symmetry. now apply Hn.
Qed.

End Binary64Facts.

(** ** Rounding and logarithm facts for the note mapper over the reals *)
Module NumberFacts.
Local Open Scope R_scope.

Lemma Math_floor_bound (x : R) :
  IZR (Js.Math_floor x) <= x < IZR (Js.Math_floor x) + 1.
Proof. exact (Zfloor_bound x). Qed.

Lemma Math_floor_eq (z : Z) (x : R) :
  IZR z <= x < IZR z + 1 -> Js.Math_floor x = z.
Proof. exact (Zfloor_eq z x). Qed.

Lemma Math_round_bound (x : R) :
  IZR (Js.Math_round x) - / 2 <= x < IZR (Js.Math_round x) + / 2.
Proof.
  unfold Js.Math_round. pose proof (Zfloor_bound (x + / 2)). lra.
Qed.

Lemma Math_round_eq (z : Z) (x : R) :
  IZR z - / 2 <= x < IZR z + / 2 -> Js.Math_round x = z.
Proof. intros H. unfold Js.Math_round. apply Zfloor_eq. lra. Qed.

Lemma Math_round_IZR (z : Z) : Js.Math_round (IZR z) = z.
Proof. apply Math_round_eq. lra. Qed.

Lemma Math_floor_div12 (z : Z) : Js.Math_floor (IZR z / 12) = (z / 12)%Z.
Proof.
  apply Math_floor_eq.
  pose proof (Z.div_mod z 12 ltac:(lia)) as Hz.
  pose proof (Z.mod_pos_bound z 12 ltac:(lia)) as [Hlo Hhi].
  assert (Hr : IZR z = 12 * IZR (z / 12) + IZR (z mod 12)).
  { rewrite Hz at 1. rewrite plus_IZR, mult_IZR. reflexivity. }
  apply IZR_le in Hlo. apply IZR_lt in Hhi. lra.
Qed.

Lemma ln2_pos : 0 < ln 2.
Proof. pose proof ln_lt_2. lra. Qed.

Lemma ln_semitoneRatio : ln MusicUtilsOverReals.semitoneRatio = ln 2 / 12.
Proof. unfold MusicUtilsOverReals.semitoneRatio. rewrite ln_Rpower. lra. Qed.

Lemma ln_semitoneRatio_pos : 0 < ln MusicUtilsOverReals.semitoneRatio.
Proof. rewrite ln_semitoneRatio. pose proof ln2_pos. lra. Qed.

(** The semitone count of the frequency of the [n]-th semitone is [n]. *)
Lemma semitones_of_power (standardPitch : R) (n : Z) :
  0 < standardPitch ->
  ln (standardPitch * Rpower MusicUtilsOverReals.semitoneRatio (IZR n) / standardPitch)
  / ln MusicUtilsOverReals.semitoneRatio = IZR n.
Proof.
  intros Hp.
  replace (standardPitch * Rpower MusicUtilsOverReals.semitoneRatio (IZR n) / standardPitch)
    with (Rpower MusicUtilsOverReals.semitoneRatio (IZR n)) by (field; lra).
  rewrite ln_Rpower. pose proof ln_semitoneRatio_pos. field. lra.
Qed.

End NumberFacts.

(** ** The round trip of the note mapper, over the reals *)
Module MusicUtilsSpec.
Import Types MusicUtilsOverReals NumberFacts.
Local Open Scope R_scope.

(** The index normalisation of [frequencyToNote], on an integral semitone
    count [n]: the pitch class of [n + 9]. *)
Lemma rebased_index (n : Z) :
  Js.rem ((if (Js.rem n 12 <? 0)%Z then Js.rem n 12 + 12 else Js.rem n 12) + 9) 12
  = ((n + 9) mod 12)%Z.
Proof.
  unfold Js.rem. destruct (Z.ltb_spec (Z.rem n 12) 0);
    Z.quot_rem_to_equations; Z.div_mod_to_equations; lia.
Qed.

Lemma noteToFrequency_known (note : string) (octave : Z) (standardPitch : R) (i : Z) :
  Js.indexOf NOTE_NAMES_ABC note = i -> i <> (-1)%Z ->
  noteToFrequency note octave standardPitch
  = standardPitch * Rpower semitoneRatio (IZR ((octave - 4) * 12 + (i - 9))).
Proof.
  intros <- Hi. unfold noteToFrequency.
  destruct (Z.eqb_spec (Js.indexOf NOTE_NAMES_ABC note) (-1)); [contradiction|reflexivity].
Qed.

(** [frequencyToNote] at the exact frequency of the [n]-th semitone from the
    reference. *)
Lemma frequencyToNote_of_semitone (standardPitch : R) (n : Z) :
  0 < standardPitch ->
  frequencyToNote (standardPitch * Rpower semitoneRatio (IZR n)) standardPitch
  = {| note := Js.index NOTE_NAMES_ABC ((n + 9) mod 12);
       octave := n / 12 + 4;
       cents := 0 |}.
Proof.
  intros Hp. unfold frequencyToNote. cbv zeta.
  rewrite semitones_of_power by assumption.
  rewrite Math_round_IZR, Math_floor_div12, rebased_index.
  replace ((IZR n - IZR n) * 100) with (IZR 0) by lra.
  rewrite Math_round_IZR. reflexivity.
Qed.

Lemma index_roundtrip (o i : Z) :
  (0 <= i < 12)%Z -> (((o - 4) * 12 + (i - 9) + 9) mod 12 = i)%Z.
Proof. intros Hi. Z.div_mod_to_equations. lia. Qed.

Lemma octave_roundtrip (o i : Z) :
  (0 <= i < 12)%Z ->
  (((o - 4) * 12 + (i - 9)) / 12 + 4 = if i <? 9 then o - 1 else o)%Z.
Proof.
  intros Hi. destruct (Z.ltb_spec i 9); Z.div_mod_to_equations; lia.
Qed.

(** What the round trip returns for the [i]-th name of [NOTE_NAMES_ABC]:
    the note and zero cents always, the octave only from A upwards. *)
Lemma frequencyToNote_noteToFrequency
      (i : nat) (name : string) (o : Z) (standardPitch : R) :
  nth_error NOTE_NAMES_ABC i = Some name ->
  0 < standardPitch ->
  frequencyToNote (noteToFrequency name o standardPitch) standardPitch
  = {| note := Some name;
       octave := if (Z.of_nat i <? 9)%Z then o - 1 else o;
       cents := 0 |}.
Proof.
  intros Hi Hp.
  do 12 (destruct i as [|i];
         [ injection Hi as <-;
           erewrite noteToFrequency_known
             by (vm_compute; first [reflexivity | discriminate]);
           rewrite frequencyToNote_of_semitone by assumption;
           rewrite index_roundtrip, octave_roundtrip by lia;
           reflexivity
         | ]).
  destruct i; discriminate.
Qed.

(** From A upwards the round trip is exact. *)
Lemma roundtrip_from_A (i : nat) (name : string) (o : Z) (standardPitch : R) :
  nth_error NOTE_NAMES_ABC i = Some name ->
  (9 <= i)%nat ->
  415 <= standardPitch <= 466 ->
  frequencyToNote (noteToFrequency name o standardPitch) standardPitch
  = {| note := Some name; octave := o; cents := 0 |}.
Proof.
  intros Hi H9 Hp.
  rewrite (frequencyToNote_noteToFrequency i name o standardPitch Hi) by lra.
  destruct (Z.ltb_spec (Z.of_nat i) 9); [lia | reflexivity].
Qed.

(** C1 (defect of the code). The round trip of C4 under A4 = 440 Hz comes
    back as C3: note and cents are recovered, the octave is one too low.
    [frequencyToNote] takes the octave as [floor(semitones / 12) + 4], counted
    from A, where [noteToFrequency] (and the hook's own mapping) count octaves
    from C; every pitch class from C to G# loses one octave this way. *)
Theorem roundtrip_C4_returns_C3 :
  frequencyToNote (noteToFrequency "C" 4 440) 440
  = {| note := Some "C"%string; octave := 3; cents := 0 |}.
Proof.
  exact (frequencyToNote_noteToFrequency 0 "C" 4 440 eq_refl ltac:(lra)).
Qed.

End MusicUtilsSpec.

(** ** The cents of the note mapper *)
Module CentsSpec.
Import Binary64 MusicUtils Binary64Facts.
Local Open Scope float_scope.

(** The integers from [lo], [len] of them. *)
Definition zrange (lo : Z) (len : nat) : list Z :=
  map (fun i => (lo + Z.of_nat i)%Z) (seq 0 len).

Lemma in_zrange (lo n : Z) (len : nat) :
  (lo <= n < lo + Z.of_nat len)%Z -> In n (zrange lo len).
Proof.
  intros H. unfold zrange. apply in_map_iff.
  exists (Z.to_nat (n - lo)). split; [lia|]. apply in_seq. lia.
Qed.

(** An integral number between -50 and 50. *)
Definition centsInRange (c : float) : bool :=
  (-50 <=? c) && (c <=? 50) && PrimFloat.Leibniz.eqb (Math_round c) c.

Lemma centsInRange_of_Z (n : Z) :
  (-50 <= n <= 50)%Z -> centsInRange (of_Z n) = true.
Proof.
  intros Hn.
  assert (Hall : forallb (fun k => centsInRange (of_Z k)) (zrange (-50) 101) = true)
    by (vm_compute; reflexivity).
  rewrite forallb_forall in Hall. apply Hall, in_zrange. lia.
Qed.

Lemma centsInRange_spec (c : float) :
  centsInRange c = true ->
  (-50 <=? c) = true /\ (c <=? 50) = true /\ Math_round c = c.
Proof.
  unfold centsInRange. intros H.
  apply andb_prop in H. destruct H as [H H3].
  apply andb_prop in H. destruct H as [H1 H2].
  apply FloatAxioms.Leibniz.eqb_spec in H3. repeat split; assumption.
Qed.

Lemma centsOf_finite (s : float) :
  is_finite s = true -> centsInRange (centsOf s) = true.
Proof.
  intros Hs. destruct (proj1 (centsOf_range s) Hs) as (n & Hn & [-> | ->]).
  - now apply centsInRange_of_Z.
  - reflexivity.
Qed.

(** An infinity divided by any number is an infinity or NaN. *)
Lemma neg_infinity_div (y : float) : is_finite (neg_infinity / y) = false.
Proof.
  rewrite is_finite_spec, FloatAxioms.div_spec.
  change (Prim2SF neg_infinity) with (S754_infinity true).
  destruct (Prim2SF y); reflexivity.
Qed.

Section WithMath.
Context {M : Math}.

Lemma cents_frequencyToNote (frequency standardPitch : float) :
  cents (frequencyToNote frequency standardPitch)
  = centsOf (semitonesFromA4 frequency standardPitch).
Proof. reflexivity. Qed.

(** When the quotient [frequency / standardPitch] underflows to 0, the
    semitone count is infinite (or NaN) and so cents is NaN. *)
Lemma cents_of_underflow (frequency standardPitch : float) :
  frequency / standardPitch = 0 ->
  cents (frequencyToNote frequency standardPitch) = nan.
Proof.
  intros Hq. rewrite cents_frequencyToNote.
  apply (proj2 (centsOf_range _)).
  unfold semitonesFromA4. rewrite Hq, Math_log_zero. apply neg_infinity_div.
Qed.

(** C3, amended.  Whenever the semitone count
    [Math.log(frequency / standardPitch) / Math.log(semitoneRatio)] is a
    finite number, the cents value of [frequencyToNote] is an integral number
    in the closed interval [-50, 50]; when the count is infinite or NaN, cents
    is NaN.  This holds for every [Math] object. *)
Theorem frequencyToNote_cents_bound (frequency standardPitch : float) :
  let s := semitonesFromA4 frequency standardPitch in
  let c := cents (frequencyToNote frequency standardPitch) in
  (is_finite s = true ->
   (-50 <=? c) = true /\ (c <=? 50) = true /\ Math_round c = c)
  /\ (is_finite s = false -> c = nan).
Proof.
  cbv zeta. rewrite cents_frequencyToNote. split.
  - intros Hs. apply centsInRange_spec, centsOf_finite, Hs.
  - apply (proj2 (centsOf_range _)).
Qed.

End WithMath.

(** C3, as stated, fails: the smallest positive number is a positive finite
    frequency, and under the reference pitch 440 the quotient
    [frequency / standardPitch] underflows to 0, so that cents is NaN and not
    in the interval, whatever the [Math] object. *)
Lemma cents_nan_on_underflow :
  (0 <? 5e-324) = true /\ is_finite 5e-324 = true
  /\ (0 <? 440) = true /\ is_finite 440 = true
  /\ forall M : Math,
      cents (frequencyToNote 5e-324 440) = nan
      /\ (-50 <=? cents (frequencyToNote 5e-324 440)) = false
      /\ (cents (frequencyToNote 5e-324 440) <=? 50) = false.
Proof.
  repeat split; try reflexivity;
    rewrite (cents_of_underflow 5e-324 440) by reflexivity; reflexivity.
Qed.

Lemma frequencyToNote_cents_bound_witness :
  is_finite (@semitonesFromA4 SeriesMath.seriesMath 445 440) = true
  /\ (-50 <=? cents (@frequencyToNote SeriesMath.seriesMath 445 440)) = true
  /\ (cents (@frequencyToNote SeriesMath.seriesMath 445 440) <=? 50) = true.
Proof.
  assert (Hs : is_finite (@semitonesFromA4 SeriesMath.seriesMath 445 440) = true)
    by (vm_compute; reflexivity).
  split; [exact Hs|].
  destruct (proj1 (@frequencyToNote_cents_bound SeriesMath.seriesMath 445 440) Hs)
    as (Hlo & Hhi & _).
  split; [exact Hlo | exact Hhi].
Defined.

(** With the series-computed [Math] object, 445 Hz is 20 cents above A4.
    Both ends of the interval are reached: half a semitone above a note
    reads as 50 cents below the next one. *)
Example cents_445 :
  @frequencyToNote SeriesMath.seriesMath 445 440
  = {| note := Some "A"%string; octave := 4; cents := 20 |}.
Proof. vm_compute. reflexivity. Qed.

(** The round trip of C4 under A4 = 440 Hz, in binary64 with the
    series-computed [Math] object: note C, octave 3. *)
Example roundtrip_C4_binary64 :
  @frequencyToNote SeriesMath.seriesMath
    (@noteToFrequency SeriesMath.seriesMath "C" 4 440) 440
  = {| note := Some "C"%string; octave := 3; cents := -0 |}.
Proof. vm_compute. reflexivity. Qed.

Example centsOf_ends : centsOf 0.5 = (-50)%float /\ centsOf 0.4999 = 50%float.
Proof. split; vm_compute; reflexivity. Qed.

End CentsSpec.

(** ** Unrecognised note names *)
Module UnrecognizedNotes.
Import Js Binary64 Types MusicUtils.

Lemma unrecognized_indexOf (note : string) :
  ~ recognized note -> Js.indexOf NOTE_NAMES_ABC note = (-1)%Z.
Proof.
  intros H. unfold Js.indexOf, NOTE_NAMES_ABC. cbn [Js.indexOf_from].
  repeat match goal with
         | |- context [String.eqb ?a note] =>
             destruct (String.eqb_spec a note) as [E | E];
             [ exfalso; apply H; rewrite <- E;
               unfold recognized, recognizedNames; simpl; tauto
             | clear E ]
         end.
  reflexivity.
Qed.

(** A lookup misses the own properties and the prototype. *)
Lemma unrecognized_get (table : list (string * string)) (note : string) :
  (forall k, In k (map fst table) -> recognized k) ->
  ~ recognized note -> inherited note = false ->
  get (list_to_map table) note = JsUndefined.
Proof.
  intros Hkeys H Hproto. unfold get.
  rewrite (not_elem_of_list_to_map_1 table note), Hproto; [reflexivity|].
  rewrite list_elem_of_In. intros Hin. apply H, Hkeys, Hin.
Qed.

Ltac recognized_keys :=
  intros k Hk; unfold recognized, recognizedNames; simpl in Hk |- *; tauto.

Definition asStated (note : string) : Prop :=
  forall (M : Math) (octave standardPitch : float) (fromKey toKey : string)
         (accidentalSystem : AccidentalSystem) (notationSystem : NotationSystem),
    JsNumber (noteToFrequency note octave standardPitch) = JsString note
    /\ convertAccidental note accidentalSystem = JsString note
    /\ of_option_string (transposeNote note fromKey toKey) = JsString note
    /\ getNoteDisplayName note notationSystem = JsString note.

Lemma H_unrecognized : ~ recognized "H".
Proof.
  unfold recognized, recognizedNames. simpl. intros H.
  repeat (destruct H as [H | H]; [discriminate H|]). exact H.
Qed.

Lemma toString_unrecognized : ~ recognized "toString".
Proof.
  unfold recognized, recognizedNames. simpl. intros H.
  repeat (destruct H as [H | H]; [discriminate H|]). exact H.
Qed.

(** C4, as stated, fails.  H is no recognised spelling, and
    [noteToFrequency] answers the number 0 for it, not the input.  And
    toString is no recognised spelling either, but it names a member of
    [Object.prototype], which the lookups of [convertAccidental] and
    [getNoteDisplayName] find and return in the place of the input. *)
Lemma unrecognized_note_counterexample :
  (~ recognized "H"
   /\ (forall (M : Math) (octave standardPitch : float),
          noteToFrequency "H" octave standardPitch = 0%float)
   /\ ~ asStated "H")
  /\ (~ recognized "toString"
      /\ convertAccidental "toString" sharp = JsInherited "toString"
      /\ convertAccidental "toString" flat = JsInherited "toString"
      /\ getNoteDisplayName "toString" DoReMi = JsInherited "toString"
      /\ ~ asStated "toString").
Proof.
  split; [split; [exact H_unrecognized | split] | split; [exact toString_unrecognized|]].
  - intros M octave standardPitch. unfold noteToFrequency.
    rewrite unrecognized_indexOf by exact H_unrecognized. reflexivity.
  - intros H.
    destruct (H SeriesMath.seriesMath 4%float 440%float "C"%string "D"%string sharp ABC)
      as [H0 _].
    discriminate H0.
  - repeat split; try (vm_compute; reflexivity).
    intros H.
    destruct (H SeriesMath.seriesMath 4%float 440%float "C"%string "D"%string sharp ABC)
      as (_ & H1 & _).
    vm_compute in H1. discriminate H1.
Qed.

(** C4, amended.  For a note name that no table knows and that names no
    member of [Object.prototype], [convertAccidental], [transposeNote] and
    [getNoteDisplayName] return the input unchanged and [noteToFrequency]
    returns 0; all four are total. *)
Theorem unrecognized_note_soft_noop
        {M : Math} (note : string) (octave standardPitch : float)
        (fromKey toKey : string)
        (accidentalSystem : AccidentalSystem) (notationSystem : NotationSystem) :
  ~ recognized note -> inherited note = false ->
  noteToFrequency note octave standardPitch = 0%float
  /\ convertAccidental note accidentalSystem = JsString note
  /\ transposeNote note fromKey toKey = Some note
  /\ getNoteDisplayName note notationSystem = JsString note.
Proof.
  intros H Hproto. repeat split.
  - unfold noteToFrequency. rewrite unrecognized_indexOf by exact H. reflexivity.
  - unfold convertAccidental, flatToSharp, sharpToFlat.
    destruct accidentalSystem;
      rewrite unrecognized_get by (recognized_keys || assumption); reflexivity.
  - unfold transposeNote. rewrite (unrecognized_indexOf note) by exact H.
    rewrite !orb_true_r. reflexivity.
  - unfold getNoteDisplayName, NOTE_NAMES_DOREMI_MAP.
    destruct notationSystem; [reflexivity|].
    rewrite unrecognized_get by (recognized_keys || assumption). reflexivity.
Qed.

Lemma unrecognized_note_soft_noop_witness :
  ~ recognized "H" /\ inherited "H" = false
  /\ @noteToFrequency SeriesMath.seriesMath "H" 4 440 = 0%float
  /\ convertAccidental "H" flat = JsString "H"
  /\ transposeNote "H" "C" "D" = Some "H"%string
  /\ getNoteDisplayName "H" DoReMi = JsString "H".
Proof.
  assert (Hp : inherited "H" = false) by reflexivity.
  split; [exact H_unrecognized|]. split; [exact Hp|].
  exact (@unrecognized_note_soft_noop SeriesMath.seriesMath
           "H" 4%float 440%float "C" "D" flat DoReMi H_unrecognized Hp).
Defined.

(** What the lookups do with the names of the members of
    [Object.prototype]: the member is returned, never the input. *)
Lemma inherited_member_returned (note : string) :
  inherited note = true ->
  convertAccidental note sharp = JsInherited note
  /\ convertAccidental note flat = JsInherited note
  /\ getNoteDisplayName note DoReMi = JsInherited note.
Proof.
  intros H. unfold inherited, Object_prototype in H. cbn [existsb] in H.
  repeat match type of H with
         | (String.eqb note ?a || _)%bool = true =>
             destruct (String.eqb_spec note a) as [E | _];
             [rewrite E; vm_compute; repeat split; reflexivity | cbn [orb] in H]
         end.
  discriminate H.
Qed.

End UnrecognizedNotes.

(** ** The two frequency-to-note mappings side by side *)
Module NoteMapperAgreement.
Import Binary64 Types Binary64Facts.
Local Open Scope float_scope.



Definition placeholder : MusicUtils.NoteInfo :=
  {| MusicUtils.note := Some ""%string; MusicUtils.octave := 0;
     MusicUtils.cents := 0 |}.

(** The index arithmetic of the two mappings on the remainder [v] of the
    rounded semitone count: the utility normalises a negative remainder, the
    hook does not. *)
Definition utilsIndex (v : float) : float :=
  rem ((if v <? 0 then v + 12 else v) + 9) 12.

Definition hookIndex (v : float) : float := rem (v + 9) 12.

Lemma known_index (note : string) :
  In note NOTE_NAMES_ABC ->
  (0 <= Js.indexOf NOTE_NAMES_ABC note < 12)%Z
  /\ nth_error NOTE_NAMES_ABC (Z.to_nat (Js.indexOf NOTE_NAMES_ABC note)) = Some note.
Proof.
  intros H. simpl in H.
  repeat (destruct H as [<- | H]; [vm_compute; repeat split; discriminate|]).
  contradiction.
Qed.

(** What an array read by a number returns is an element of the array. *)
Lemma index_In {A : Type} (arr : list A) (x : float) (a : A) :
  index arr x = Some a -> In a arr.
Proof.
  unfold index. destruct (Prim2SF x) as [s | s | | [|] m e]; try discriminate.
  - apply nth_error_In.
  - destruct (0 <=? e)%Z; [discriminate|].
    destruct (Zpos m mod 2 ^ (- e) =? 0)%Z; [apply nth_error_In | discriminate].
Qed.


Section WithMath.
Context {M : Math}.

Lemma utils_unfolded (frequency standardPitch : float) :
  MusicUtils.frequencyToNote frequency standardPitch
  = let s := MusicUtils.semitonesFromA4 frequency standardPitch in
    {| MusicUtils.note := index NOTE_NAMES_ABC (utilsIndex (rem (Math_round s) 12));
       MusicUtils.octave := Math_floor (s / 12) + 4;
       MusicUtils.cents := centsOf s |}.
Proof. reflexivity. Qed.

Lemma hook_past_guard (standartPitch frequency : float) :
  UsePitchDetection.guard frequency = false ->
  UsePitchDetection.frequencyToNote standartPitch frequency
  = let s := UsePitchDetection.semitonesFromA4 standartPitch frequency in
    {| MusicUtils.note :=
         index UsePitchDetection.noteNames (hookIndex (rem (Math_round s) 12));
       MusicUtils.octave := Math_floor ((s + 9) / 12) + 4;
       MusicUtils.cents := centsOf s |}.
Proof.
  unfold UsePitchDetection.guard, UsePitchDetection.frequencyToNote.
  intros ->. reflexivity.
Qed.

Lemma hook_below_guard (standartPitch frequency : float) :
  UsePitchDetection.guard frequency = true ->
  UsePitchDetection.frequencyToNote standartPitch frequency = placeholder.
Proof.
  unfold UsePitchDetection.guard, UsePitchDetection.frequencyToNote.
  intros ->. reflexivity.
Qed.



End WithMath.



(** The two slips the amended claim leaves out, with the series-computed
    [Math] object and A4 = 440 Hz.  At 660 Hz (E5) the utility says octave 4
    and the hook octave 5; at 250 Hz (just above B3) the utility names B and
    the hook reads its name table at index -1. *)
Example disagree_octave :
  MusicUtils.octave (@MusicUtils.frequencyToNote SeriesMath.seriesMath 660 440) = 4
  /\ MusicUtils.octave (@UsePitchDetection.frequencyToNote SeriesMath.seriesMath 440 660)
     = 5.
Proof. split; vm_compute; reflexivity. Qed.

Example disagree_note :
  MusicUtils.note (@MusicUtils.frequencyToNote SeriesMath.seriesMath 250 440)
  = Some "B"%string
  /\ MusicUtils.note (@UsePitchDetection.frequencyToNote SeriesMath.seriesMath 440 250)
     = None.
Proof. split; vm_compute; reflexivity. Qed.

(** The two semitone counts need not be the same number.  With the
    series-computed [Math] object, 138.63134801057262 Hz reads as 1 cent in
    the utility and as 0 cents in the hook, and 142.65235101161093 Hz, half
    way between two notes, as D and -50 cents in the utility and as C sharp
    and 50 cents in the hook. *)
Example disagree_cents :
  MusicUtils.cents
    (@MusicUtils.frequencyToNote SeriesMath.seriesMath 138.63134801057262 440) = 1
  /\ MusicUtils.cents
       (@UsePitchDetection.frequencyToNote SeriesMath.seriesMath 440 138.63134801057262)
     = 0.
Proof. split; vm_compute; reflexivity. Qed.

Example disagree_rounding :
  @MusicUtils.frequencyToNote SeriesMath.seriesMath 142.65235101161093 440
  = {| MusicUtils.note := Some "D"%string; MusicUtils.octave := 2;
       MusicUtils.cents := -50 |}
  /\ @UsePitchDetection.frequencyToNote SeriesMath.seriesMath 440 142.65235101161093
     = {| MusicUtils.note := nth_error UsePitchDetection.noteNames 1;
          MusicUtils.octave := 3; MusicUtils.cents := 50 |}.
Proof. split; vm_compute; reflexivity. Qed.

End NoteMapperAgreement.

(** ** The scrolling note buffer *)
Module StaffAnalyzerWidgetSpec.
Import StaffAnalyzerWidget.
Local Open Scope Q_scope.

(** *** The display position *)

(** The slider offers 5 to 30 seconds and [|| 10] replaces an absent or zero
    entry: a time window that is not negative in the settings is positive
    in the widget. *)
Lemma timeWindow_positive (settings : Settings) :
  (forall v, settings_timeWindow settings = Some v -> 0 <= v) ->
  0 < timeWindow settings.
Proof.
  intros H. unfold timeWindow, Js.or_Q.
  destruct (settings_timeWindow settings) as [v|]; [|reflexivity].
  specialize (H v eq_refl).
  destruct (Qeq_bool v 0) eqn:E; [reflexivity|].
  apply Qeq_bool_neq in E. apply Qle_lteq in H. destruct H as [H | H]; [exact H|].
  exfalso. apply E. symmetry. exact H.
Qed.

Lemma progress_monotone (timeWindow : Q) (age1 age2 : Z) :
  0 < timeWindow -> (age1 <= age2)%Z ->
  inject_Z age1 / (timeWindow * 1000) <= inject_Z age2 / (timeWindow * 1000).
Proof.
  intros Htw Hage. unfold Qdiv. apply Qmult_le_compat_r.
  - rewrite <- Zle_Qle. exact Hage.
  - apply Qinv_le_0_compat. Lqa.lra.
Qed.

Lemma getNoteLeft_bounds (timeWindow : Q) (noteTimestamp currentTime : Z) :
  10 <= getNoteLeft timeWindow noteTimestamp currentTime <= 90.
Proof.
  unfold getNoteLeft. cbv zeta. split.
  - apply Q.le_max_l.
  - apply Q.max_lub; [discriminate | apply Q.le_min_l].
Qed.

Lemma getNoteLeft_monotone (timeWindow : Q) (noteTimestamp t1 t2 : Z) :
  0 < timeWindow -> (t1 <= t2)%Z ->
  getNoteLeft timeWindow noteTimestamp t2 <= getNoteLeft timeWindow noteTimestamp t1.
Proof.
  intros Htw Ht. unfold getNoteLeft. cbv zeta.
  apply Q.max_le_compat_l, Q.min_le_compat_l.
  pose proof (progress_monotone timeWindow (t1 - noteTimestamp) (t2 - noteTimestamp)
                Htw ltac:(lia)) as Hp.
  Lqa.lra.
Qed.

(** A note enters at the right edge and has reached the left edge once its
    age is the time window. *)
Lemma getNoteLeft_fresh (timeWindow : Q) (now : Z) :
  getNoteLeft timeWindow now now == 90.
Proof.
  unfold getNoteLeft. cbv zeta. rewrite Z.sub_diag.
  unfold Qdiv. rewrite Qmult_0_l.
  rewrite Q.min_l by Lqa.lra. apply Q.max_r. Lqa.lra.
Qed.

(** C6. For a fixed event and a fixed (positive) time window, [getNoteLeft] is
    non-increasing in the current time, and its value always lies between
    the left edge 10 and the right edge 90. *)
Theorem getNoteLeft_monotone_bounded
        (timeWindow : Q) (noteTimestamp t1 t2 : Z) :
  0 < timeWindow -> (t1 <= t2)%Z ->
  getNoteLeft timeWindow noteTimestamp t2 <= getNoteLeft timeWindow noteTimestamp t1
  /\ (forall currentTime,
         10 <= getNoteLeft timeWindow noteTimestamp currentTime <= 90).
Proof.
  intros Htw Ht. split.
  - now apply getNoteLeft_monotone.
  - intros currentTime. apply getNoteLeft_bounds.
Qed.

Lemma getNoteLeft_monotone_bounded_witness :
  0 < 10 /\ (2000 <= 7000)%Z
  /\ getNoteLeft 10 1000 7000 <= getNoteLeft 10 1000 2000
  /\ (forall currentTime, 10 <= getNoteLeft 10 1000 currentTime <= 90).
Proof.
  assert (Htw : 0 < 10) by reflexivity.
  assert (Ht : (2000 <= 7000)%Z) by lia.
  split; [exact Htw|]. split; [exact Ht|].
  exact (getNoteLeft_monotone_bounded 10 1000 2000 7000 Htw Ht).
Defined.

(** *** Eviction *)

Lemma filter_same_length {A : Type} (f : A -> bool) (l : list A) :
  List.length (List.filter f l) = List.length l -> List.filter f l = l.
Proof.
  induction l as [|a l IH]; simpl; [reflexivity|].
  destruct (f a) eqn:E; simpl; intros H.
  - f_equal. apply IH. lia.
  - pose proof (List.filter_length_le f l). lia.
Qed.

Lemma filter_twice {A : Type} (f : A -> bool) (l : list A) :
  List.filter f (List.filter f l) = List.filter f l.
Proof.
  induction l as [|a l IH]; simpl; [reflexivity|].
  destruct (f a) eqn:E; simpl; [rewrite E; f_equal|]; exact IH.
Qed.

(** The updater is the age filter, returned as the same array when nothing
    is removed. *)
Lemma cleanup_filter (timeWindow : Q) (now : Z) (prev : list NoteHistoryItem) :
  cleanup timeWindow now prev
  = List.filter (fun note => ltb (inject_Z (now - timestamp note)) (timeWindow * 1000))
      prev.
Proof.
  unfold cleanup. cbv zeta.
  destruct (Nat.eqb_spec
              (List.length (List.filter
                 (fun note => ltb (inject_Z (now - timestamp note)) (timeWindow * 1000))
                 prev))
              (List.length prev)) as [E | E]; simpl; [|reflexivity].
  symmetry. now apply filter_same_length.
Qed.

Lemma cleanup_idempotent (timeWindow : Q) (now : Z) (prev : list NoteHistoryItem) :
  cleanup timeWindow now (cleanup timeWindow now prev) = cleanup timeWindow now prev.
Proof. rewrite !cleanup_filter. apply filter_twice. Qed.

(** C7. Eviction is idempotent: at a fixed time [now], the cleanup updater
    applied twice removes nothing beyond its first application, and a second
    animation frame at the same [now] leaves the whole widget state as the
    first one left it. *)
Theorem eviction_idempotent
        (timeWindow : Q) (now : Z) (prev : list NoteHistoryItem) (st : WidgetState) :
  cleanup timeWindow now (cleanup timeWindow now prev) = cleanup timeWindow now prev
  /\ animate timeWindow now (animate timeWindow now st) = animate timeWindow now st.
Proof.
  split; [apply cleanup_idempotent|].
  unfold animate.
  destruct (Z.gtb_spec (now - lastCleanupTime st) 500) as [Hgt | Hle]; cbn.
  - rewrite Z.sub_diag. reflexivity.
  - destruct (Z.gtb_spec (now - lastCleanupTime st) 500); [lia | reflexivity].
Qed.

(** The scenario of the design notes: events at 0, 2, 4 and 6 s under a 10 s
    window; eviction at 11 s removes the event of 0 s only. *)
Example cleanup_scenario :
  map timestamp
      (cleanup 10 11000
         (map (fun t => testNote "A4" 440 (9 # 10) t) [0; 2000; 4000; 6000]%Z))
  = [2000; 4000; 6000]%Z.
Proof. vm_compute. reflexivity. Qed.

(** *** The insertion throttle *)

(** [b] comes at least 100 ms after [a] when both are pitch events. *)
Definition after (a b : NoteHistoryItem) : Prop :=
  isPitch a = true -> isPitch b = true -> (timestamp a + 100 <= timestamp b)%Z.

(** Every pitch event of the buffer comes at least 100 ms after each pitch
    event before it. *)
Fixpoint spaced (notes : list NoteHistoryItem) : Prop :=
  match notes with
  | [] => True
  | a :: rest => Forall (after a) rest /\ spaced rest
  end.

(** No pitch event is younger than [bound]. *)
Definition notAfter (bound : Z) (notes : list NoteHistoryItem) : Prop :=
  Forall (fun a => isPitch a = true -> (timestamp a <= bound)%Z) notes.

Lemma spaced_snoc (notes : list NoteHistoryItem) (x : NoteHistoryItem) :
  spaced notes -> Forall (fun a => after a x) notes -> spaced (notes ++ [x]).
Proof.
  induction notes as [|a notes IH]; simpl.
  - intros _ _. split; [constructor | exact I].
  - intros [Ha Hs] Hx. inversion Hx as [|? ? Hax Hrest]; subst. split.
    + apply List.Forall_app. split; [exact Ha | constructor; [exact Hax | constructor]].
    + now apply IH.
Qed.

Lemma Forall_filter_keep {A : Type} (P : A -> Prop) (f : A -> bool) (l : list A) :
  Forall P l -> Forall P (List.filter f l).
Proof.
  induction 1 as [|a l Ha _ IH]; simpl; [constructor|].
  destruct (f a); [constructor; assumption | assumption].
Qed.

Lemma Forall_skipn_keep {A : Type} (P : A -> Prop) (k : nat) (l : list A) :
  Forall P l -> Forall P (skipn k l).
Proof.
  revert l. induction k as [|k IH]; intros l H; [exact H|].
  destruct H as [|a l Ha Hl]; simpl; [constructor | now apply IH].
Qed.

Lemma spaced_filter (f : NoteHistoryItem -> bool) (notes : list NoteHistoryItem) :
  spaced notes -> spaced (List.filter f notes).
Proof.
  induction notes as [|a notes IH]; simpl; [trivial|].
  intros [Ha Hs]. destruct (f a); simpl.
  - split; [now apply Forall_filter_keep | now apply IH].
  - now apply IH.
Qed.

Lemma spaced_skipn (k : nat) (notes : list NoteHistoryItem) :
  spaced notes -> spaced (skipn k notes).
Proof.
  revert notes. induction k as [|k IH]; intros notes H; [exact H|].
  destruct notes as [|a notes]; simpl; [exact I|].
  destruct H as [_ Hs]. now apply IH.
Qed.

(** What [spaced] says about two positions of the buffer. *)
Lemma spaced_positions (notes : list NoteHistoryItem) (i j : nat)
      (a b : NoteHistoryItem) :
  spaced notes -> (i < j)%nat ->
  nth_error notes i = Some a -> nth_error notes j = Some b ->
  after a b.
Proof.
  revert i j. induction notes as [|x notes IH]; intros i j Hs Hij Hi Hj.
  - destruct i; discriminate Hi.
  - destruct Hs as [Hx Hs]. destruct j as [|j]; [lia|]. simpl in Hj.
    destruct i as [|i]; simpl in Hi.
    + injection Hi as <-. rewrite List.Forall_forall in Hx.
      apply Hx. eapply nth_error_In. exact Hj.
    + apply (IH i j); [assumption | lia | assumption | assumption].
Qed.

Section Throttle.

Variable getNote : Q -> string.
Variable settings : Settings.

(** The invariant of the widget: the pitch events of the buffer are spaced by
    100 ms and none is younger than the last accepted observation. *)
Definition throttled (st : WidgetState) : Prop :=
  spaced (latestNotes st) /\ notAfter (lastNoteTimeRef st) (latestNotes st).

Lemma throttled_initial (now : Z) : throttled (initialState now).
Proof. split; [exact I | constructor]. Qed.

Lemma noteEffect_throttled (frequency : option Q) (clarity : Q) (now : Z)
      (st : WidgetState) :
  (now - lastNoteTimeRef st < 100)%Z ->
  noteEffect getNote settings frequency clarity now st = st.
Proof.
  intros H. unfold noteEffect.
  destruct frequency as [f|]; [|reflexivity].
  destruct (negb (Qeq_bool f 0) && ltb 50 f); [|reflexivity].
  destruct (Z.ltb_spec (now - lastNoteTimeRef st) 100); [reflexivity | lia].
Qed.

Lemma noteEffect_keeps (frequency : option Q) (clarity : Q) (now : Z)
      (st : WidgetState) :
  throttled st -> throttled (noteEffect getNote settings frequency clarity now st).
Proof.
  intros [Hs Hb]. unfold noteEffect.
  destruct frequency as [f|]; [|split; assumption].
  destruct (negb (Qeq_bool f 0) && ltb 50 f); [|split; assumption].
  destruct (Z.ltb_spec (now - lastNoteTimeRef st) 100) as [Hlt | Hge];
    [split; assumption|].
  destruct (nonEmpty (getNote f)); [|split; assumption].
  unfold throttled, notAfter in *. cbn [latestNotes lastNoteTimeRef]. split.
  - apply spaced_snoc; [exact Hs|].
    eapply List.Forall_impl; [|exact Hb]. cbn beta.
    intros a Ha Hpa _. cbn [timestamp]. specialize (Ha Hpa). lia.
  - apply List.Forall_app. split.
    + eapply List.Forall_impl; [|exact Hb]. cbn beta.
      intros a Ha Hpa. specialize (Ha Hpa). lia.
    + constructor; [|constructor]. intros _. cbn [timestamp]. lia.
Qed.

Lemma tickEffect_keeps (playing : bool) (beat now : Z) (st : WidgetState) :
  throttled st -> throttled (tickEffect settings playing beat now st).
Proof.
  intros [Hs Hb]. unfold tickEffect.
  destruct (playing && (beat >? 0)%Z).
  - destruct (negb (beat =? previousBeatRef st)%Z); [|split; assumption].
    destruct (now - lastTickTimeRef st >=? 50)%Z; [|split; assumption].
    unfold throttled, notAfter, Js.slice_from in *.
    cbn [latestNotes lastNoteTimeRef]. split.
    + apply spaced_skipn, spaced_snoc; [exact Hs|].
      apply List.Forall_forall. intros a _ _ Hp. discriminate Hp.
    + apply Forall_skipn_keep, List.Forall_app. split; [exact Hb|].
      constructor; [|constructor]. intros Hp. discriminate Hp.
  - destruct (negb playing); split; assumption.
Qed.

Lemma animate_keeps (now : Z) (st : WidgetState) :
  throttled st -> throttled (animate (timeWindow settings) now st).
Proof.
  intros [Hs Hb]. unfold animate.
  destruct (now - lastCleanupTime st >? 500)%Z; [|split; assumption].
  unfold throttled, notAfter in *. cbn [latestNotes lastNoteTimeRef].
  rewrite cleanup_filter. split.
  - now apply spaced_filter.
  - now apply Forall_filter_keep.
Qed.

Lemma step_keeps (st : WidgetState) (ev : Event) :
  isTestNote ev = false ->
  throttled st -> throttled (step getNote settings st ev).
Proof.
  intros Hev Hst. destruct ev; simpl.
  - now apply animate_keeps.
  - now apply noteEffect_keeps.
  - now apply tickEffect_keeps.
  - discriminate Hev.
  - split; [exact I | constructor].
Qed.

Lemma run_keeps (events : list Event) (st : WidgetState) :
  forallb (fun ev => negb (isTestNote ev)) events = true ->
  throttled st -> throttled (run getNote settings st events).
Proof.
  revert st. induction events as [|ev events IH]; intros st Hev Hst; [exact Hst|].
  simpl in Hev. apply andb_prop in Hev as [Hev Hrest].
  simpl. apply IH; [exact Hrest|].
  apply step_keeps; [|exact Hst].
  now apply negb_true_iff.
Qed.

Lemma slice_keeps_last {A : Type} (l : list A) (x : A) (size : Z) :
  (0 < size)%Z -> last (Js.slice_from (l ++ [x]) (- size)) = Some x.
Proof.
  intros Hsize. unfold Js.slice_from.
  destruct (Z.ltb_spec (- size) 0) as [_ | Hge]; [|lia].
  rewrite List.length_app. simpl List.length.
  rewrite List.skipn_app.
  replace (Z.to_nat (Z.max (Z.of_nat (List.length l + 1) + - size) 0)
           - List.length l)%nat with 0%nat by lia.
  simpl skipn. apply last_snoc.
Qed.

(** C8, amended. The insertion throttle of the note buffer:
    - a pitch observation that comes less than 100 ms after the last accepted
      one leaves the widget state, and so the buffer, unchanged;
    - a tick marker does not look at the time of the last accepted pitch
      observation: a new beat at least 50 ms after the last tick is appended
      whatever that time is, and a beat within 50 ms of the last tick leaves
      the buffer unchanged;
    - in every run of the widget from its initial state without sample notes
      from the test generator, two pitch (non-tick) events of the buffer are
      at least 100 ms apart. *)
Theorem insertion_throttle :
  (0 < bufferSize settings)%Z ->
  (forall st frequency clarity now,
      (now - lastNoteTimeRef st < 100)%Z ->
      noteEffect getNote settings frequency clarity now st = st)
  /\ (forall st beat now,
         (0 < beat)%Z -> beat <> previousBeatRef st ->
         (50 <= now - lastTickTimeRef st)%Z ->
         last (latestNotes (tickEffect settings true beat now st)) = Some (newTick now)
         /\ lastNoteTimeRef (tickEffect settings true beat now st) = lastNoteTimeRef st)
  /\ (forall st playing beat now,
         (now - lastTickTimeRef st < 50)%Z ->
         latestNotes (tickEffect settings playing beat now st) = latestNotes st)
  /\ (forall start events i j a b,
         forallb (fun ev => negb (isTestNote ev)) events = true ->
         let notes := latestNotes (run getNote settings (initialState start) events) in
         (i < j)%nat -> nth_error notes i = Some a -> nth_error notes j = Some b ->
         isPitch a = true -> isPitch b = true ->
         (100 <= timestamp b - timestamp a)%Z).
Proof.
  intros Hsize. repeat split.
  - intros st frequency clarity now. apply noteEffect_throttled.
  - unfold tickEffect.
    destruct (Z.gtb_spec beat 0); [|lia].
    destruct (Z.eqb_spec beat (previousBeatRef st)); [contradiction|].
    destruct (Z.geb_spec (now - lastTickTimeRef st) 50); [|lia].
    cbn [andb negb latestNotes]. now apply slice_keeps_last.
  - unfold tickEffect.
    destruct (Z.gtb_spec beat 0); [|lia].
    destruct (Z.eqb_spec beat (previousBeatRef st)); [contradiction|].
    destruct (Z.geb_spec (now - lastTickTimeRef st) 50); [|lia].
    reflexivity.
  - intros st playing beat now Hlt. unfold tickEffect.
    destruct (playing && (beat >? 0)%Z).
    + destruct (negb (beat =? previousBeatRef st)%Z); [|reflexivity].
      destruct (Z.geb_spec (now - lastTickTimeRef st) 50); [lia | reflexivity].
    + destruct (negb playing); reflexivity.
  - intros start events i j a b Hev notes Hij Hi Hj Ha Hb.
    destruct (run_keeps events (initialState start) Hev (throttled_initial start))
      as [Hs _].
    pose proof (spaced_positions _ i j a b Hs Hij Hi Hj Ha Hb). lia.
Qed.

End Throttle.

(** A run with the default settings: two observations 50 ms apart (the second
    one is dropped), a metronome beat in between and a third observation. *)
Definition noSettings : Settings :=
  {| settings_bufferSize := None; settings_minClarity := None;
     settings_timeWindow := None |}.

Definition sampleEvents : list Event :=
  [ Detection (Some 440) (9 # 10) 1000;
    Detection (Some 441) (9 # 10) 1050;
    Beat true 1 1060;
    Detection (Some 442) (9 # 10) 1100;
    Frame 1200 ].

Example sampleEvents_buffer :
  map (fun n => (timestamp n, isPitch n))
      (latestNotes (run (fun _ => "A4"%string) noSettings (initialState 0) sampleEvents))
  = [(1000, true); (1060, false); (1100, true)]%Z.
Proof. vm_compute. reflexivity. Qed.

Lemma insertion_throttle_witness :
  (0 < bufferSize noSettings)%Z
  /\ forall a b,
      nth_error
        (latestNotes (run (fun _ => "A4"%string) noSettings (initialState 0) sampleEvents))
        0 = Some a ->
      nth_error
        (latestNotes (run (fun _ => "A4"%string) noSettings (initialState 0) sampleEvents))
        2 = Some b ->
      isPitch a = true -> isPitch b = true ->
      (100 <= timestamp b - timestamp a)%Z.
Proof.
  assert (Hsize : (0 < bufferSize noSettings)%Z) by reflexivity.
  split; [exact Hsize|].
  intros a b Ha Hb.
  exact (proj2 (proj2 (proj2
           (insertion_throttle (fun _ => "A4"%string) noSettings Hsize)))
           0%Z sampleEvents 0%nat 2%nat a b eq_refl ltac:(lia) Ha Hb).
Defined.

(** The sample notes of the test generator and of the test button go past
    the throttle: one of them may stand 10 ms after an accepted observation. *)
Lemma test_note_bypasses_throttle :
  map (fun n => (timestamp n, isPitch n))
      (latestNotes
         (run (fun _ => "A4"%string) noSettings (initialState 0)
              [ Detection (Some 440) (9 # 10) 1000; TestNote "C4" 261 (9 # 10) 1010 ]))
  = [(1000, true); (1010, true)]%Z.
Proof. vm_compute. reflexivity. Qed.

(** C8, as stated, fails: after an accepted observation at 1000 ms and a
    sample note from the Add Test Note button at 1010 ms, the buffer holds
    two pitch (non-tick) events that are 10 ms apart. *)
Lemma throttle_bypassed_by_test_note :
  exists a b,
    latestNotes
      (run (fun _ => "A4"%string) noSettings (initialState 0)
           [ Detection (Some 440) (9 # 10) 1000; TestNote "C4" 261 (9 # 10) 1010 ])
    = [a; b]
    /\ isPitch a = true /\ isPitch b = true
    /\ (timestamp b - timestamp a < 100)%Z.
Proof.
  eexists. eexists. split; [vm_compute; reflexivity|].
  repeat split; vm_compute; reflexivity.
Qed.

End StaffAnalyzerWidgetSpec.

(** ** Stopping the detection *)
Module UsePitchDetectionSpec.
Import UsePitchDetection.

(** The branches of [stop]: each ref is null or held, a held context is
    closed or not. *)
Ltac stop_cases h b :=
  unfold stop;
  destruct (truthyFrame (rafRef h)), (streamRef h), (sourceRef h),
    (audioContextRef h) as [?ctx|];
  try match goal with
      | |- context [decide (?c ∈ closedContexts b)] =>
          destruct (decide (c ∈ closedContexts b))
      end;
  cbn.

Lemma stop_refs (h : HookState) (b : Browser) :
  streamRef (fst (stop (h, b))) = None
  /\ sourceRef (fst (stop (h, b))) = None
  /\ analyserRef (fst (stop (h, b))) = None
  /\ isActive (fst (stop (h, b))) = false
  /\ isActiveRef (fst (stop (h, b))) = false
  /\ result (fst (stop (h, b))) = emptyResult.
Proof. stop_cases h b; repeat split. Qed.

Lemma stop_context (h : HookState) (b : Browser) (ctx : nat) :
  audioContextRef h = Some ctx \/ audioContextRef (fst (stop (h, b))) = Some ctx ->
  ctx ∈ closedContexts (snd (stop (h, b))).
Proof.
  stop_cases h b; intros [H | H];
    try discriminate H; try (injection H as <-); set_solver.
Qed.

Lemma stop_tracks (h : HookState) (b : Browser) (stream : MediaStream) (t : nat) :
  streamRef h = Some stream -> t ∈ getTracks stream ->
  t ∉ liveTracks (snd (stop (h, b))).
Proof.
  intros Hs Ht. revert Hs. stop_cases h b; intros Hs;
    try discriminate Hs; injection Hs as ->; unfold stopTracks; set_solver.
Qed.

Lemma stop_source (h : HookState) (b : Browser) (source : nat) :
  sourceRef h = Some source ->
  source ∉ connectedSources (snd (stop (h, b))).
Proof.
  stop_cases h b; intros Hs; try discriminate Hs; injection Hs as ->; set_solver.
Qed.

Lemma stop_frame (h : HookState) (b : Browser) (id : Z) :
  rafRef h = Some id -> id <> 0%Z ->
  (id ∉ pendingFrames (snd (stop (h, b))))
  /\ rafRef (fst (stop (h, b))) = None.
Proof.
  intros Hr Hid. unfold stop, truthyFrame. rewrite Hr.
  destruct (Z.eqb_spec id 0); [contradiction|].
  destruct (streamRef h), (sourceRef h), (audioContextRef h) as [c|];
    try destruct (decide (c ∈ closedContexts b)); cbn; split;
    first [reflexivity | set_solver].
Qed.

Lemma stop_twice (h : HookState) (b : Browser) :
  stop (stop (h, b)) = stop (h, b).
Proof.
  destruct h as [res act actRef ctxRef anRef raf stream source mounted].
  destruct b as [live connected closed pending].
  destruct raf as [id|]; [destruct (Z.eqb_spec id 0) as [-> | Hid]|];
    destruct stream, source, ctxRef as [c|];
    unfold stop, truthyFrame; cbn;
    try (destruct (Z.eqb_spec id 0); [contradiction|]);
    try (destruct (decide (c ∈ closed)) as [Hc | Hc]); cbn;
    try (destruct (decide (c ∈ closed)); [|contradiction]);
    reflexivity.
Qed.

(** C9. [stop] is idempotent and releases the capture: a second [stop] changes
    neither the hook nor the browser; after [stop], from any state of the
    refs (a half-finished setup as well), the stream, source and analyser
    refs are null, the audio context ref is null or holds a closed context,
    every track of the stream that was held is stopped, the source that was
    held is disconnected, the context that was held is closed, the animation
    frame that was requested is cancelled, the hook is inactive and the
    detection loop stops at its next turn. *)
Theorem stop_idempotent_releases (h : HookState) (b : Browser) :
  stop (stop (h, b)) = stop (h, b)
  /\ streamRef (fst (stop (h, b))) = None
  /\ sourceRef (fst (stop (h, b))) = None
  /\ analyserRef (fst (stop (h, b))) = None
  /\ (forall ctx, audioContextRef (fst (stop (h, b))) = Some ctx ->
                  ctx ∈ closedContexts (snd (stop (h, b))))
  /\ (forall stream t, streamRef h = Some stream -> t ∈ getTracks stream ->
                       t ∉ liveTracks (snd (stop (h, b))))
  /\ (forall source, sourceRef h = Some source ->
                     source ∉ connectedSources (snd (stop (h, b))))
  /\ (forall ctx, audioContextRef h = Some ctx ->
                  ctx ∈ closedContexts (snd (stop (h, b))))
  /\ (forall id, rafRef h = Some id -> id <> 0%Z ->
                 id ∉ pendingFrames (snd (stop (h, b))))
  /\ isActive (fst (stop (h, b))) = false
  /\ isActiveRef (fst (stop (h, b))) = false
  /\ updateRuns (fst (stop (h, b))) = false.
Proof.
  destruct (stop_refs h b) as (Hs & Hsrc & Han & Hact & Href & _).
  split; [apply stop_twice|].
  split; [exact Hs|]. split; [exact Hsrc|]. split; [exact Han|].
  split; [intros ctx H; apply stop_context; now right|].
  split; [intros stream t; apply stop_tracks|].
  split; [intros source; apply stop_source|].
  split; [intros ctx H; apply stop_context; now left|].
  split; [intros id Hr Hid; exact (proj1 (stop_frame h b id Hr Hid))|].
  split; [exact Hact|]. split; [exact Href|].
  unfold updateRuns. rewrite Href, Han. apply andb_false_r.
Qed.

(** A setup that failed half way: the stream was obtained, the audio context
    was not; [stop] stops both tracks of the stream and clears the ref. *)
Example stop_after_partial_setup :
  let h := {| result := emptyResult; isActive := false; isActiveRef := false;
              audioContextRef := None; analyserRef := None; rafRef := None;
              streamRef := Some {| streamId := 1; getTracks := [7; 8]%nat |};
              sourceRef := None; isMountedRef := true |} in
  let b := {| liveTracks := {[ 7%nat; 8%nat; 9%nat ]}; connectedSources := ∅;
              closedContexts := ∅; pendingFrames := ∅ |} in
  streamRef (fst (stop (h, b))) = None
  /\ liveTracks (snd (stop (h, b))) = {[ 9%nat ]}.
Proof. cbv zeta. split; [reflexivity|]. cbn. unfold stopTracks. cbn. set_solver. Qed.

End UsePitchDetectionSpec.

(** * Part III: further properties of the same files *)

(** ** The lag the estimator settles on *)
Module PitchDetectorRange.
Import PitchDetector.
Local Open Scope float_scope.

(** The lag loop keeps the candidate it was given or picks one of the lags
    it visits. *)
Lemma autocorrelate_lag (buffer : list float) (maxSamples : nat) :
  forall (count offset : nat) (best : Z * float),
    fst (autocorrelate buffer maxSamples offset count best) = fst best
    \/ exists lag : nat,
        (offset <= lag < offset + count)%nat
        /\ fst (autocorrelate buffer maxSamples offset count best) = Z.of_nat lag.
Proof.
  induction count as [|count IH]; intros offset best; simpl.
  - left. reflexivity.
  - destruct (IH (S offset) (tryOffset buffer maxSamples offset best)) as [H | (lag & Hl & H)].
    + rewrite H. unfold tryOffset.
      destruct (snd best <? _).
      * right. exists offset. split; [lia | reflexivity].
      * left. reflexivity.
    + right. exists lag. split; [lia | exact H].
Qed.

(** X1. Whatever the samples, [detectPitch] answers 0 or the sample rate
    divided by a lag [k] with [1 <= k < floor(size / 2)]: no frequency comes
    from a lag of 0 or from a lag of half the buffer or more. *)
Theorem detectPitch_lag_range (sampleRate : float) (buffer : list float) :
  detectPitch sampleRate buffer = 0
  \/ exists lag : nat,
      (1 <= lag < List.length buffer / 2)%nat
      /\ detectPitch sampleRate buffer = sampleRate / of_nat lag.
Proof.
  unfold detectPitch.
  destruct (rmsGate buffer); [left; reflexivity|].
  set (m := (List.length buffer / 2)%nat).
  destruct (autocorrelate_lag buffer m (m - 1) 1 ((-1)%Z, 0)) as [H | (lag & Hl & H)];
    destruct (autocorrelate buffer m 1 (m - 1) ((-1)%Z, 0)) as [bestOffset bestCorrelation];
    simpl in H; subst bestOffset.
  - left. reflexivity.
  - destruct ((Z.of_nat lag =? -1)%Z || (bestCorrelation <? 0.3)).
    + left. reflexivity.
    + right. exists lag. split; [lia | reflexivity].
Qed.

End PitchDetectorRange.

(** ** The pitch buffer *)
Module PitchBufferSpec.
Import PitchBuffer.

(** The last [n] elements of a list. *)
Definition lastn {A : Type} (n : nat) (l : list A) : list A :=
  skipn (List.length l - n) l.

Lemma lastn_all {A : Type} (n : nat) (l : list A) :
  (List.length l <= n)%nat -> lastn n l = l.
Proof.
  intros H. unfold lastn. replace (List.length l - n)%nat with 0%nat by lia.
  reflexivity.
Qed.

Lemma lastn_length {A : Type} (n : nat) (l : list A) :
  List.length (lastn n l) = Nat.min n (List.length l).
Proof. unfold lastn. rewrite List.length_skipn. lia. Qed.

Lemma tl_skipn {A : Type} (l : list A) : tl l = skipn 1 l.
Proof. destruct l; reflexivity. Qed.

(** Dropping a prefix that the last [n] elements do not reach changes
    nothing. *)
Lemma lastn_skipn_app {A : Type} (n k : nat) (x y : list A) :
  (k <= List.length x)%nat ->
  (k <= List.length x + List.length y - n)%nat ->
  lastn n (skipn k x ++ y) = lastn n (x ++ y).
Proof.
  intros Hk Hn. unfold lastn.
  rewrite !List.length_app, List.length_skipn.
  replace (List.length x + List.length y - n)%nat
    with ((List.length x - k + List.length y - n) + k)%nat by lia.
  rewrite <- List.skipn_skipn.
  rewrite (List.skipn_app k x y).
  replace (k - List.length x)%nat with 0%nat by lia.
  reflexivity.
Qed.

Lemma slice_from_lastn {A : Type} (l : list A) (n : Z) :
  (0 < n)%Z -> Js.slice_from l (- n) = lastn (Z.to_nat n) l.
Proof.
  intros Hn. unfold Js.slice_from, lastn.
  destruct (Z.ltb_spec (- n) 0); [|lia].
  f_equal. lia.
Qed.

Lemma slice_from_zero {A : Type} (l : list A) : Js.slice_from l (- 0) = l.
Proof.
  unfold Js.slice_from. change (- 0)%Z with 0%Z.
  destruct (Z.ltb_spec 0 0); [lia|].
  replace (Z.to_nat (Z.min 0 (Z.of_nat (List.length l)))) with 0%nat by lia.
  reflexivity.
Qed.

(** One [add] on a buffer within its bound. *)
Lemma add_within (p : PitchPoint.PitchPoint) (b : PitchBuffer) :
  (0 <= maxSize b)%Z ->
  (Z.of_nat (List.length (buffer b)) <= maxSize b)%Z ->
  buffer (add p b) = lastn (Z.to_nat (maxSize b)) (buffer b ++ [p])
  /\ maxSize (add p b) = maxSize b.
Proof.
  intros H0 Hlen. unfold add. cbv zeta.
  rewrite List.length_app. simpl List.length.
  destruct (Z.gtb_spec (Z.of_nat (List.length (buffer b) + 1)) (maxSize b)) as [Hgt | Hle];
    cbn [buffer maxSize]; split; try reflexivity.
  - rewrite tl_skipn. unfold lastn. f_equal.
    rewrite List.length_app. simpl. lia.
  - symmetry. apply lastn_all. rewrite List.length_app. simpl. lia.
Qed.

Definition addAll (points : list PitchPoint.PitchPoint) (b : PitchBuffer) : PitchBuffer :=
  fold_left (fun b p => add p b) points b.

(** X2. A buffer within its bound is a sliding window: after any sequence of
    [add] it holds the last [maxSize] points of what it held followed by what
    was added, in order, and [maxSize] is unchanged. *)
Theorem add_sliding_window (points : list PitchPoint.PitchPoint) (b : PitchBuffer) :
  (0 <= maxSize b)%Z ->
  (Z.of_nat (List.length (buffer b)) <= maxSize b)%Z ->
  getBuffer (addAll points b) = lastn (Z.to_nat (maxSize b)) (buffer b ++ points)
  /\ maxSize (addAll points b) = maxSize b.
Proof.
  revert b. induction points as [|p points IH]; intros b H0 Hlen.
  - unfold addAll, getBuffer. cbn [fold_left]. rewrite List.app_nil_r.
    split; [|reflexivity].
    symmetry. apply lastn_all. lia.
  - destruct (add_within p b H0 Hlen) as [Hb Hm].
    unfold addAll. cbn [fold_left]. fold (addAll points (add p b)).
    destruct (IH (add p b)) as [IHb IHm].
    + rewrite Hm. exact H0.
    + rewrite Hm, Hb, lastn_length. lia.
    + split; [|congruence].
      unfold getBuffer in *. rewrite IHb, Hm, Hb.
      unfold lastn at 2.
      rewrite lastn_skipn_app by (rewrite List.length_app; simpl; lia).
      rewrite <- List.app_assoc. reflexivity.
Qed.

Definition samplePoint (t : float) : PitchPoint.PitchPoint :=
  {| PitchPoint.timestamp := t; PitchPoint.frequency := 440;
     PitchPoint.note := Some "A"%string; PitchPoint.cents := 0;
     PitchPoint.confidence := 1; PitchPoint.octave := 4 |}.

Lemma add_sliding_window_witness :
  (0 <= maxSize (create 2))%Z
  /\ (Z.of_nat (List.length (buffer (create 2))) <= maxSize (create 2))%Z
  /\ getBuffer (addAll [samplePoint 1; samplePoint 2; samplePoint 3] (create 2))
     = [samplePoint 2; samplePoint 3].
Proof.
  assert (H0 : (0 <= maxSize (create 2))%Z) by (simpl; lia).
  assert (H1 : (Z.of_nat (List.length (buffer (create 2))) <= maxSize (create 2))%Z)
    by (simpl; lia).
  split; [exact H0|]. split; [exact H1|].
  exact (proj1 (add_sliding_window
                  [samplePoint 1; samplePoint 2; samplePoint 3] (create 2) H0 H1)).
Defined.

Lemma add_at_bound_length (p : PitchPoint.PitchPoint) (b : PitchBuffer) :
  (maxSize b <= Z.of_nat (List.length (buffer b)))%Z ->
  List.length (buffer (add p b)) = List.length (buffer b)
  /\ maxSize (add p b) = maxSize b.
Proof.
  intros H. unfold add. cbv zeta. rewrite List.length_app. simpl List.length.
  destruct (Z.gtb_spec (Z.of_nat (List.length (buffer b) + 1)) (maxSize b)); [|lia].
  cbn [buffer maxSize]. split; [|reflexivity].
  rewrite tl_skipn, List.length_skipn, List.length_app. simpl. lia.
Qed.

(** X3. [add] shifts one point out at most: a buffer that holds [maxSize]
    points or more (after [import], which does not trim, or after
    [setMaxSize(0)]) keeps exactly its size under any sequence of [add]; an
    over-full buffer is never brought back under its bound. *)
Theorem add_never_trims (points : list PitchPoint.PitchPoint) (b : PitchBuffer) :
  (maxSize b <= Z.of_nat (List.length (buffer b)))%Z ->
  getSize (addAll points b) = getSize b.
Proof.
  revert b. induction points as [|p points IH]; intros b H; [reflexivity|].
  destruct (add_at_bound_length p b H) as [Hl Hm].
  unfold addAll. cbn [fold_left]. fold (addAll points (add p b)).
  rewrite IH by (rewrite Hm, Hl; exact H).
  unfold getSize. exact Hl.
Qed.

(** A buffer of three points under a bound of one, as [import] makes it. *)
Definition overfull : PitchBuffer :=
  import {| notes := Some [samplePoint 1; samplePoint 2; samplePoint 3];
            dataMaxSize := Some 1%Z; dataTimestamp := None |} (create 250).

Lemma add_never_trims_witness :
  (maxSize overfull <= Z.of_nat (List.length (buffer overfull)))%Z
  /\ getSize (addAll [samplePoint 4; samplePoint 5] overfull) = getSize overfull.
Proof.
  assert (H : (maxSize overfull <= Z.of_nat (List.length (buffer overfull)))%Z)
    by (simpl; lia).
  split; [exact H|].
  exact (add_never_trims [samplePoint 4; samplePoint 5] overfull H).
Defined.

(** X4. [setMaxSize(size)] for [size >= 1] keeps the last [size] points; for
    [size = 0] it keeps every point, since [slice(-0)] is the whole array:
    the buffer is then larger than its new bound. *)
Theorem setMaxSize_keeps (size : Z) (b : PitchBuffer) :
  (0 <= size)%Z ->
  buffer (setMaxSize size b)
  = (if (size =? 0)%Z then buffer b else lastn (Z.to_nat size) (buffer b))
  /\ maxSize (setMaxSize size b) = size.
Proof.
  intros Hs. unfold setMaxSize.
  destruct (Z.gtb_spec (Z.of_nat (List.length (buffer b))) size) as [Hgt | Hle];
    cbn [buffer maxSize]; (split; [|reflexivity]).
  - destruct (Z.eqb_spec size 0) as [-> | Hne].
    + apply slice_from_zero.
    + apply slice_from_lastn. lia.
  - destruct (Z.eqb_spec size 0); [reflexivity|].
    symmetry. apply lastn_all. lia.
Qed.

Lemma setMaxSize_keeps_witness :
  (0 <= 0)%Z
  /\ buffer (setMaxSize 0 (addAll [samplePoint 1; samplePoint 2] (create 250)))
     = [samplePoint 1; samplePoint 2].
Proof.
  assert (H : (0 <= 0)%Z) by lia.
  split; [exact H|].
  exact (proj1 (setMaxSize_keeps 0
                  (addAll [samplePoint 1; samplePoint 2] (create 250)) H)).
Defined.

(** X5. [getRecentNotes(count)] returns the last [count] points for
    [count >= 1] (all of them when there are fewer), and all points, not
    none, for [count = 0]. *)
Theorem getRecentNotes_last (count : Z) (b : PitchBuffer) :
  (0 <= count)%Z ->
  getRecentNotes count b
  = if (count =? 0)%Z then buffer b else lastn (Z.to_nat count) (buffer b).
Proof.
  intros Hc. unfold getRecentNotes.
  destruct (Z.eqb_spec count 0) as [-> | Hne].
  - apply slice_from_zero.
  - apply slice_from_lastn. lia.
Qed.

Lemma getRecentNotes_last_witness :
  (0 <= 2)%Z
  /\ getRecentNotes 2 (addAll [samplePoint 1; samplePoint 2; samplePoint 3] (create 250))
     = [samplePoint 2; samplePoint 3].
Proof.
  assert (H : (0 <= 2)%Z) by lia.
  split; [exact H|].
  exact (getRecentNotes_last 2
           (addAll [samplePoint 1; samplePoint 2; samplePoint 3] (create 250)) H).
Defined.

(** X6. What [export] writes, [import] reads back: importing the export of a
    buffer whose [maxSize] is not 0 into any other buffer makes that buffer
    equal to the exported one.  (A [maxSize] of 0 is falsy and is not taken
    over.) *)
Theorem import_export (now : Z) (b target : PitchBuffer) :
  maxSize b <> 0%Z -> import (export now b) target = b.
Proof.
  intros Hm. unfold import, export. cbn [notes dataMaxSize Js.or_Z].
  destruct (Z.eqb_spec (maxSize b) 0); [contradiction|].
  destruct b; reflexivity.
Qed.

Lemma import_export_witness :
  maxSize (addAll [samplePoint 1; samplePoint 2] (create 250)) <> 0%Z
  /\ import (export 99 (addAll [samplePoint 1; samplePoint 2] (create 250))) (create 10)
     = addAll [samplePoint 1; samplePoint 2] (create 250).
Proof.
  assert (H : maxSize (addAll [samplePoint 1; samplePoint 2] (create 250)) <> 0%Z)
    by (simpl; lia).
  split; [exact H|].
  exact (import_export 99 _ (create 10) H).
Defined.

End PitchBufferSpec.

(** ** The life cycle of the PitchDetector *)
Module PitchDetectorLifecycleSpec.
Import UsePitchDetection PitchDetectorLifecycle.

(** X7. [destroy] is idempotent; after it the detector no longer detects,
    the source and context fields are null, the source that was held is
    disconnected and the context that was held is closed.  The analyser, the
    sample array and the tracks of the browser are left as they were. *)
Theorem destroy_releases (d : PitchDetectorState) (b : Browser) :
  destroy (destroy (d, b)) = destroy (d, b)
  /\ isDetecting (fst (destroy (d, b))) = false
  /\ microphone (fst (destroy (d, b))) = None
  /\ audioContext (fst (destroy (d, b))) = None
  /\ (forall source, microphone d = Some source ->
                     source ∉ connectedSources (snd (destroy (d, b))))
  /\ (forall ctx, audioContext d = Some ctx ->
                  ctx ∈ closedContexts (snd (destroy (d, b))))
  /\ analyser (fst (destroy (d, b))) = analyser d
  /\ dataArray (fst (destroy (d, b))) = dataArray d
  /\ liveTracks (snd (destroy (d, b))) = liveTracks b.
Proof.
  destruct d as [ctx an mic arr det]. destruct b as [live conn closed pending].
  unfold destroy, stopDetection. cbn.
  destruct mic as [source|], ctx as [c|]; cbn; repeat split;
    try (intros ? [= <-]); try discriminate; set_solver.
Qed.

(** X8. The microphone stays on: after a successful [initialize], [destroy]
    leaves every track of the stream [getUserMedia] gave live (the class
    keeps no handle on the stream), and since the analyser and the sample
    array are kept, [startDetection] after [destroy] starts detecting
    again. *)
Theorem destroy_leaves_stream_live (g : Grants) (b : Browser) (stream : MediaStream) :
  userMedia g = Some stream ->
  let after := destroy (fst (initialize g (created, b))) in
  snd (initialize g (created, b)) = true
  /\ (forall t, t ∈ getTracks stream -> t ∈ liveTracks (snd after))
  /\ isDetecting (startDetection (fst after)) = true.
Proof.
  intros Hs. cbv zeta. unfold initialize, created. rewrite Hs.
  unfold destroy, stopDetection, startDetection. cbn.
  repeat split. intros t Ht. set_solver.
Qed.

Lemma destroy_leaves_stream_live_witness :
  userMedia {| newContext := 1; userMedia := Some {| streamId := 2; getTracks := [5%nat] |};
               newSource := 3; newAnalyser := 4 |}
  = Some {| streamId := 2; getTracks := [5%nat] |}
  /\ 5%nat ∈ liveTracks
       (snd (destroy (fst (initialize
          {| newContext := 1; userMedia := Some {| streamId := 2; getTracks := [5%nat] |};
             newSource := 3; newAnalyser := 4 |}
          (created, {| liveTracks := ∅; connectedSources := ∅; closedContexts := ∅;
                       pendingFrames := ∅ |}))))).
Proof.
  split; [reflexivity|].
  refine (proj1 (proj2 (destroy_leaves_stream_live
           {| newContext := 1; userMedia := Some {| streamId := 2; getTracks := [5%nat] |};
              newSource := 3; newAnalyser := 4 |}
           {| liveTracks := ∅; connectedSources := ∅; closedContexts := ∅;
              pendingFrames := ∅ |}
           {| streamId := 2; getTracks := [5%nat] |} eq_refl)) 5%nat _).
  set_solver.
Defined.

End PitchDetectorLifecycleSpec.

(** ** Octaves in the two note mappings *)
(** ** Transposition, accidentals and notation systems *)
Module NotationSpec.
Import Js Types MusicUtils NoteMapperAgreement.

Lemma rem_normalised (x : Z) :
  (if (Js.rem x 12 <? 0)%Z then Js.rem x 12 + 12 else Js.rem x 12)%Z = (x mod 12)%Z.
Proof.
  unfold Js.rem. destruct (Z.ltb_spec (Z.rem x 12) 0);
    Z.quot_rem_to_equations; Z.div_mod_to_equations; lia.
Qed.

Lemma transposeNote_known (note fromKey toKey : string) :
  In note NOTE_NAMES_ABC -> In fromKey NOTE_NAMES_ABC -> In toKey NOTE_NAMES_ABC ->
  transposeNote note fromKey toKey
  = Js.index NOTE_NAMES_ABC
      ((Js.indexOf NOTE_NAMES_ABC note
        + (Js.indexOf NOTE_NAMES_ABC toKey - Js.indexOf NOTE_NAMES_ABC fromKey)) mod 12).
Proof.
  intros Hn Hf Ht.
  destruct (known_index note Hn) as [Hin _].
  destruct (known_index fromKey Hf) as [Hif _].
  destruct (known_index toKey Ht) as [Hit _].
  unfold transposeNote. cbv zeta.
  destruct (Z.eqb_spec (Js.indexOf NOTE_NAMES_ABC fromKey) (-1)); [lia|].
  destruct (Z.eqb_spec (Js.indexOf NOTE_NAMES_ABC toKey) (-1)); [lia|].
  destruct (Z.eqb_spec (Js.indexOf NOTE_NAMES_ABC note) (-1)); [lia|].
  cbn [orb]. rewrite rem_normalised. reflexivity.
Qed.

Lemma name_at (k : Z) :
  (0 <= k < 12)%Z ->
  exists name, Js.index NOTE_NAMES_ABC k = Some name
               /\ In name NOTE_NAMES_ABC
               /\ Js.indexOf NOTE_NAMES_ABC name = k.
Proof.
  intros Hk.
  assert (Hc : In k [0; 1; 2; 3; 4; 5; 6; 7; 8; 9; 10; 11]%Z) by (simpl; lia).
  simpl in Hc.
  repeat (destruct Hc as [<- | Hc];
          [eexists; split; [reflexivity | split; [simpl; tauto | reflexivity]]|]).
  contradiction.
Qed.

Lemma index_of_known (note : string) :
  In note NOTE_NAMES_ABC ->
  Js.index NOTE_NAMES_ABC (Js.indexOf NOTE_NAMES_ABC note) = Some note.
Proof.
  intros H. simpl in H.
  repeat (destruct H as [<- | H]; [reflexivity|]). contradiction.
Qed.

(** X13. Between keys of [NOTE_NAMES_ABC], [transposeNote] always returns a
    name of [NOTE_NAMES_ABC], and transposing back returns the note one
    started from. *)
Theorem transposeNote_roundtrip (note fromKey toKey : string) :
  In note NOTE_NAMES_ABC -> In fromKey NOTE_NAMES_ABC -> In toKey NOTE_NAMES_ABC ->
  exists moved,
    transposeNote note fromKey toKey = Some moved
    /\ In moved NOTE_NAMES_ABC
    /\ transposeNote moved toKey fromKey = Some note.
Proof.
  intros Hn Hf Ht.
  destruct (known_index note Hn) as [Hin _].
  destruct (known_index fromKey Hf) as [Hif _].
  destruct (known_index toKey Ht) as [Hit _].
  destruct (name_at ((Js.indexOf NOTE_NAMES_ABC note
                      + (Js.indexOf NOTE_NAMES_ABC toKey
                         - Js.indexOf NOTE_NAMES_ABC fromKey)) mod 12))
    as (moved & Hm & Hmin & Hmi); [apply Z.mod_pos_bound; lia|].
  exists moved. split; [|split; [exact Hmin|]].
  - rewrite transposeNote_known by assumption. exact Hm.
  - rewrite transposeNote_known by assumption. rewrite Hmi.
    rewrite <- (index_of_known note Hn). f_equal.
    Z.div_mod_to_equations. lia.
Qed.

Lemma transposeNote_roundtrip_witness :
  In "B"%string NOTE_NAMES_ABC /\ In "C"%string NOTE_NAMES_ABC
  /\ In "D"%string NOTE_NAMES_ABC
  /\ exists moved,
      transposeNote "B" "C" "D" = Some moved
      /\ In moved NOTE_NAMES_ABC
      /\ transposeNote moved "D" "C" = Some "B"%string.
Proof.
  assert (Hn : In "B"%string NOTE_NAMES_ABC) by (simpl; tauto).
  assert (Hf : In "C"%string NOTE_NAMES_ABC) by (simpl; tauto).
  assert (Ht : In "D"%string NOTE_NAMES_ABC) by (simpl; tauto).
  split; [exact Hn|]. split; [exact Hf|]. split; [exact Ht|].
  exact (transposeNote_roundtrip "B" "C" "D" Hn Hf Ht).
Defined.

(** X14. Transpositions compose: from key [a] to [b] and then from [b] to [c]
    is the transposition from [a] to [c]. *)
Theorem transposeNote_compose (note a b c moved : string) :
  In note NOTE_NAMES_ABC -> In a NOTE_NAMES_ABC -> In b NOTE_NAMES_ABC ->
  In c NOTE_NAMES_ABC ->
  transposeNote note a b = Some moved ->
  transposeNote moved b c = transposeNote note a c.
Proof.
  intros Hn Ha Hb Hc Hm.
  destruct (known_index note Hn) as [Hin _].
  destruct (known_index a Ha) as [Hia _].
  destruct (known_index b Hb) as [Hib _].
  destruct (known_index c Hc) as [Hic _].
  rewrite transposeNote_known in Hm by assumption.
  destruct (name_at ((Js.indexOf NOTE_NAMES_ABC note
                      + (Js.indexOf NOTE_NAMES_ABC b - Js.indexOf NOTE_NAMES_ABC a)) mod 12))
    as (name & Hname & Hmin & Hidx); [apply Z.mod_pos_bound; lia|].
  assert (name = moved) by congruence. subst name.
  rewrite !transposeNote_known by assumption. rewrite Hidx. f_equal.
  Z.div_mod_to_equations. lia.
Qed.

Lemma transposeNote_compose_witness :
  In "E"%string NOTE_NAMES_ABC /\ In "C"%string NOTE_NAMES_ABC
  /\ In "G"%string NOTE_NAMES_ABC /\ In "A#"%string NOTE_NAMES_ABC
  /\ transposeNote "E" "C" "G" = Some "B"%string
  /\ transposeNote "B" "G" "A#" = transposeNote "E" "C" "A#".
Proof.
  assert (Hn : In "E"%string NOTE_NAMES_ABC) by (simpl; tauto).
  assert (Ha : In "C"%string NOTE_NAMES_ABC) by (simpl; tauto).
  assert (Hb : In "G"%string NOTE_NAMES_ABC) by (simpl; tauto).
  assert (Hc : In "A#"%string NOTE_NAMES_ABC) by (simpl; tauto).
  assert (Hm : transposeNote "E" "C" "G" = Some "B"%string) by reflexivity.
  split; [exact Hn|]. split; [exact Ha|]. split; [exact Hb|]. split; [exact Hc|].
  split; [exact Hm|].
  exact (transposeNote_compose "E" "C" "G" "A#" "B" Hn Ha Hb Hc Hm).
Defined.

(** The five keys of [MusicalKey] that are spelled with a flat. *)
Definition flatKeys : list string := ["Db"; "Eb"; "Gb"; "Ab"; "Bb"]%string.

(** X15. A key spelled with a flat is a [MusicalKey] but no entry of
    [NOTE_NAMES_ABC]: transposing from or to Db, Eb, Gb, Ab or Bb returns the
    note unchanged. *)
Theorem transposeNote_flat_key (note key other : string) :
  In key flatKeys ->
  transposeNote note key other = Some note
  /\ transposeNote note other key = Some note.
Proof.
  intros Hk. simpl in Hk.
  assert (Hi : Js.indexOf NOTE_NAMES_ABC key = (-1)%Z).
  { repeat (destruct Hk as [<- | Hk]; [reflexivity|]). contradiction. }
  unfold transposeNote. cbv zeta. rewrite Hi. cbn [Z.eqb orb].
  split; [reflexivity|].
  rewrite orb_true_r. reflexivity.
Qed.

Lemma transposeNote_flat_key_witness :
  In "Eb"%string flatKeys
  /\ transposeNote "C" "C" "Eb" = Some "C"%string.
Proof.
  assert (H : In "Eb"%string flatKeys) by (simpl; tauto).
  split; [exact H|].
  exact (proj2 (transposeNote_flat_key "C" "Eb" "C" H)).
Defined.

(** A lookup among the own properties of an object literal, key by key. *)
Fixpoint assoc (table : list (string * string)) (key : string) : option string :=
  match table with
  | [] => None
  | (k, v) :: table' => if String.eqb k key then Some v else assoc table' key
  end.

Lemma lookup_assoc (table : list (string * string)) (key : string) :
  (list_to_map table : gmap string string) !! key = assoc table key.
Proof.
  induction table as [|[k v] table IH]; [reflexivity|].
  rewrite list_to_map_cons. simpl.
  destruct (String.eqb_spec k key) as [-> | Hne].
  - apply lookup_insert_eq.
  - rewrite lookup_insert_ne by exact Hne. exact IH.
Qed.

(** X16. On the 17 spellings the tables know, [convertAccidental] returns a
    string, the sharp form is always a name of [NOTE_NAMES_ABC], and the two
    accidental systems are normal forms of each other: converting to the
    other spelling first makes no difference. *)
Theorem convertAccidental_normal_forms (note : string) :
  recognized note ->
  exists inSharps inFlats,
    convertAccidental note sharp = JsString inSharps
    /\ convertAccidental note flat = JsString inFlats
    /\ In inSharps NOTE_NAMES_ABC
    /\ convertAccidental inFlats sharp = JsString inSharps
    /\ convertAccidental inSharps flat = JsString inFlats.
Proof.
  intros H. unfold recognized, recognizedNames in H. simpl in H.
  repeat (destruct H as [<- | H];
          [eexists; eexists;
           split; [vm_compute; reflexivity|];
           split; [vm_compute; reflexivity|];
           split; [simpl; tauto|];
           split; vm_compute; reflexivity|]).
  contradiction.
Qed.

Lemma convertAccidental_normal_forms_witness :
  recognized "Gb"
  /\ exists inSharps inFlats,
      convertAccidental "Gb" sharp = JsString inSharps
      /\ convertAccidental "Gb" flat = JsString inFlats
      /\ In inSharps NOTE_NAMES_ABC
      /\ convertAccidental inFlats sharp = JsString inSharps
      /\ convertAccidental inSharps flat = JsString inFlats.
Proof.
  assert (H : recognized "Gb") by (unfold recognized, recognizedNames; simpl; tauto).
  split; [exact H|].
  exact (convertAccidental_normal_forms "Gb" H).
Defined.

(** One conversion of a name that is no key of the table. *)
Lemma convert_miss (table : list (string * string)) (note : string) :
  assoc table note = None ->
  or_else (get (list_to_map table) note) note
  = if inherited note then JsInherited note else JsString note.
Proof.
  intros Hmiss. unfold get. rewrite lookup_assoc, Hmiss.
  destruct (inherited note); reflexivity.
Qed.

(** X17. [convertAccidental] is idempotent on every string it returns a
    string for: the result is a string that a second conversion leaves
    alone, unless the note names a member of [Object.prototype], and then
    that member is the result. *)
Theorem convertAccidental_idempotent
        (note : string) (accidentalSystem : AccidentalSystem) :
  match convertAccidental note accidentalSystem with
  | JsString converted =>
      convertAccidental converted accidentalSystem = JsString converted
  | other => inherited note = true /\ other = JsInherited note
  end.
Proof.
  unfold convertAccidental, flatToSharp, sharpToFlat.
  destruct accidentalSystem.
  - destruct (assoc [("Db", "C#"); ("Eb", "D#"); ("Gb", "F#"); ("Ab", "G#");
                     ("Bb", "A#")]%string note) as [v|] eqn:E.
    + cbn [assoc] in E.
      repeat match type of E with
             | (if String.eqb ?a note then _ else _) = _ =>
                 destruct (String.eqb_spec a note) as [Ea | _];
                 [rewrite <- Ea; vm_compute; reflexivity|]
             end.
      discriminate E.
    + rewrite (convert_miss _ note E).
      destruct (inherited note) eqn:Ei; [split; reflexivity|].
      rewrite (convert_miss _ note E), Ei. reflexivity.
  - destruct (assoc [("C#", "Db"); ("D#", "Eb"); ("F#", "Gb"); ("G#", "Ab");
                     ("A#", "Bb")]%string note) as [v|] eqn:E.
    + cbn [assoc] in E.
      repeat match type of E with
             | (if String.eqb ?a note then _ else _) = _ =>
                 destruct (String.eqb_spec a note) as [Ea | _];
                 [rewrite <- Ea; vm_compute; reflexivity|]
             end.
      discriminate E.
    + rewrite (convert_miss _ note E).
      destruct (inherited note) eqn:Ei; [split; reflexivity|].
      rewrite (convert_miss _ note E), Ei. reflexivity.
Qed.

(** X18. The staff undoes the notation system: for each of the 17 spellings
    and either notation system, [getNoteDisplayName] shows a string, and
    that string is mapped back to the spelling by the table of
    [convertToABC]. *)
Theorem display_name_roundtrip (note : string) (notationSystem : NotationSystem) :
  recognized note ->
  exists shown,
    getNoteDisplayName note notationSystem = JsString shown
    /\ MusicalStaff.abcNoteName shown = JsString note.
Proof.
  intros H. unfold recognized, recognizedNames in H. simpl in H.
  destruct notationSystem;
    repeat (destruct H as [<- | H];
            [eexists; split; vm_compute; reflexivity|]);
    contradiction.
Qed.

Lemma display_name_roundtrip_witness :
  recognized "Ab"
  /\ exists shown,
      getNoteDisplayName "Ab" DoReMi = JsString shown
      /\ MusicalStaff.abcNoteName shown = JsString "Ab".
Proof.
  assert (H : recognized "Ab") by (unfold recognized, recognizedNames; simpl; tauto).
  split; [exact H|].
  exact (display_name_roundtrip "Ab" DoReMi H).
Defined.

End NotationSpec.

(** ** The note names the two mappers return *)
Module NoteNameSpec.
Import Binary64 Types Binary64Facts CentsSpec NoteMapperAgreement.
Local Open Scope float_scope.

Definition isNone {A : Type} (v : option A) : bool :=
  match v with
  | None => true
  | Some _ => false
  end.

(** The remainders on which the hook reads its name table off its end:
    NaN, and -11 and -10, which it turns into the indices -2 and -1. *)
Definition hookMisses (v : float) : bool :=
  is_nan v || (v =? -11) || (v =? -10).

Lemma hook_index_table (v : float) :
  In v remainders ->
  isNone (index UsePitchDetection.noteNames (hookIndex v)) = hookMisses v.
Proof.
  intros Hv.
  assert (Hall : forallb
                   (fun v => Bool.eqb
                               (isNone (index UsePitchDetection.noteNames (hookIndex v)))
                               (hookMisses v))
                   remainders = true) by (vm_compute; reflexivity).
  rewrite forallb_forall in Hall. apply Bool.eqb_prop, Hall, Hv.
Qed.

Lemma utils_index_table (v : float) :
  In v finiteRemainders ->
  isNone (index NOTE_NAMES_ABC (utilsIndex v)) = false /\ is_nan v = false.
Proof.
  intros Hv.
  assert (Hall : forallb
                   (fun v => negb (isNone (index NOTE_NAMES_ABC (utilsIndex v)))
                             && negb (is_nan v))
                   finiteRemainders = true) by (vm_compute; reflexivity).
  rewrite forallb_forall in Hall. specialize (Hall v Hv).
  apply andb_prop in Hall. destruct Hall as [H1 H2].
  split; [destruct (isNone _) | destruct (is_nan v)]; first [reflexivity | discriminate].
Qed.

Lemma isNone_spec {A : Type} (v : option A) : isNone v = true <-> v = None.
Proof. destruct v; simpl; split; congruence. Qed.

Section WithMath.
Context {M : Math}.

(** X12. Past its guard the hook returns no note name ([undefined]) exactly
    when the remainder [Math.round(semitonesFromA4) % 12] is -11 or -10, which
    its index arithmetic turns into the indices -2 and -1, or NaN; and the
    remainder is NaN exactly when the semitone count is infinite or NaN. *)
Theorem hook_note_undefined_iff (standartPitch frequency : float) :
  UsePitchDetection.guard frequency = false ->
  let s := UsePitchDetection.semitonesFromA4 standartPitch frequency in
  let v := rem (Math_round s) 12 in
  (MusicUtils.note (UsePitchDetection.frequencyToNote standartPitch frequency) = None
   <-> (is_nan v || (v =? -11) || (v =? -10)) = true)
  /\ (is_nan v = true <-> is_finite s = false).
Proof.
  intros Hg. cbv zeta. rewrite hook_past_guard by exact Hg.
  cbv zeta. cbn [MusicUtils.note].
  set (s := UsePitchDetection.semitonesFromA4 standartPitch frequency).
  pose proof (Math_round_integral s) as Hi.
  split.
  - rewrite <- isNone_spec, (hook_index_table _ (rem12_remainders _ Hi)).
    reflexivity.
  - destruct (rem12_integral _ Hi) as [Hf Hn].
    rewrite Math_round_finite in Hf, Hn.
    destruct (is_finite s) eqn:E.
    + destruct (utils_index_table _ (Hf eq_refl)) as [_ ->]. split; discriminate.
    + rewrite (Hn eq_refl). split; reflexivity.
Qed.

(** X27. The utility always names a pitch class when it can: whenever its
    semitone count is a finite number, the note it returns is one of the
    twelve names of [NOTE_NAMES_ABC], and when the count is infinite or NaN
    the note is [undefined]. *)
Theorem utils_note_defined (frequency standardPitch : float) :
  let s := MusicUtils.semitonesFromA4 frequency standardPitch in
  let u := MusicUtils.frequencyToNote frequency standardPitch in
  (is_finite s = true ->
   exists name, MusicUtils.note u = Some name /\ In name NOTE_NAMES_ABC)
  /\ (is_finite s = false -> MusicUtils.note u = None).
Proof.
  cbv zeta. rewrite utils_unfolded. cbv zeta. cbn [MusicUtils.note].
  set (s := MusicUtils.semitonesFromA4 frequency standardPitch).
  destruct (rem12_integral _ (Math_round_integral s)) as [Hf Hn].
  rewrite Math_round_finite in Hf, Hn. split; intros Hs.
  - destruct (utils_index_table _ (Hf Hs)) as [Hsome _].
    destruct (index NOTE_NAMES_ABC (utilsIndex (rem (Math_round s) 12)))
      as [name|] eqn:E; [|discriminate Hsome].
    exists name. split; [reflexivity|]. exact (index_In _ _ _ E).
  - rewrite (Hn Hs). reflexivity.
Qed.

(** X28. The cents of the hook: 0 behind its guard; past the guard an
    integral number between -50 and 50 whenever the semitone count
    [12 * Math.log2(frequency / A4)] is a finite number, and NaN when the
    count is infinite or NaN. *)
Theorem hook_cents_bound (standartPitch frequency : float) :
  let s := UsePitchDetection.semitonesFromA4 standartPitch frequency in
  let c := MusicUtils.cents (UsePitchDetection.frequencyToNote standartPitch frequency) in
  (UsePitchDetection.guard frequency = true -> c = 0)
  /\ (UsePitchDetection.guard frequency = false ->
      (is_finite s = true ->
       (-50 <=? c) = true /\ (c <=? 50) = true /\ Math_round c = c)
      /\ (is_finite s = false -> c = nan)).
Proof.
  cbv zeta. split; intros Hg.
  - rewrite hook_below_guard by exact Hg. reflexivity.
  - rewrite hook_past_guard by exact Hg. cbv zeta. cbn [MusicUtils.cents]. split.
    + intros Hs. apply centsInRange_spec, centsOf_finite, Hs.
    + apply (proj2 (centsOf_range _)).
Qed.

End WithMath.

Lemma hook_note_undefined_iff_witness :
  @UsePitchDetection.guard 250 = false
  /\ MusicUtils.note (@UsePitchDetection.frequencyToNote SeriesMath.seriesMath 440 250)
     = None
  /\ rem (Math_round (@UsePitchDetection.semitonesFromA4 SeriesMath.seriesMath 440 250)) 12
     = (-10)%float.
Proof.
  assert (Hg : @UsePitchDetection.guard 250 = false) by reflexivity.
  split; [exact Hg|]. split.
  - apply (proj1 (@hook_note_undefined_iff SeriesMath.seriesMath 440 250 Hg)).
    vm_compute. reflexivity.
  - vm_compute. reflexivity.
Defined.

Lemma utils_note_defined_witness :
  is_finite (@MusicUtils.semitonesFromA4 SeriesMath.seriesMath 250 440) = true
  /\ exists name,
       MusicUtils.note (@MusicUtils.frequencyToNote SeriesMath.seriesMath 250 440)
       = Some name
       /\ In name NOTE_NAMES_ABC.
Proof.
  assert (Hs : is_finite (@MusicUtils.semitonesFromA4 SeriesMath.seriesMath 250 440)
               = true) by (vm_compute; reflexivity).
  split; [exact Hs|].
  exact (proj1 (@utils_note_defined SeriesMath.seriesMath 250 440) Hs).
Defined.

Lemma hook_cents_bound_witness :
  @UsePitchDetection.guard 445 = false
  /\ is_finite (@UsePitchDetection.semitonesFromA4 SeriesMath.seriesMath 440 445) = true
  /\ (-50 <=? MusicUtils.cents
                (@UsePitchDetection.frequencyToNote SeriesMath.seriesMath 440 445)) = true
  /\ (MusicUtils.cents
        (@UsePitchDetection.frequencyToNote SeriesMath.seriesMath 440 445) <=? 50) = true.
Proof.
  assert (Hg : @UsePitchDetection.guard 445 = false) by reflexivity.
  assert (Hs : is_finite (@UsePitchDetection.semitonesFromA4 SeriesMath.seriesMath 440 445)
               = true) by (vm_compute; reflexivity).
  split; [exact Hg|]. split; [exact Hs|].
  destruct (proj1 (proj2 (@hook_cents_bound SeriesMath.seriesMath 440 445) Hg) Hs)
    as (Hlo & Hhi & _).
  split; [exact Hlo | exact Hhi].
Defined.

End NoteNameSpec.

(** ** Staff positions, pitch points and smoothing *)
Module PitchPointSpec.
Import Binary64 Types MusicUtils Binary64Facts CentsSpec.

Lemma offset_step (o1 o2 : Z) :
  (o1 < o2)%Z ->
  (inject_Z ((o1 - 4) * 7) + 7 <= inject_Z ((o2 - 4) * 7))%Q.
Proof.
  intros H. change 7%Q with (inject_Z 7).
  rewrite <- inject_Z_plus, <- Zle_Qle. lia.
Qed.

(** X19. [getStaffPosition] rises with the pitch: between two names of
    [NOTE_NAMES_ABC], the note in the higher octave, or the later name in
    the same octave, stands strictly higher on the staff. *)
Theorem getStaffPosition_monotone (note1 note2 : string) (octave1 octave2 : Z) :
  In note1 NOTE_NAMES_ABC -> In note2 NOTE_NAMES_ABC ->
  (octave1 < octave2
   \/ (octave1 = octave2
       /\ Js.indexOf NOTE_NAMES_ABC note1 < Js.indexOf NOTE_NAMES_ABC note2))%Z ->
  (getStaffPosition note1 octave1 < getStaffPosition note2 octave2)%Q.
Proof.
  intros H1 H2 Ho. unfold getStaffPosition. cbv zeta.
  assert (Hoff : (inject_Z ((octave1 - 4) * 7) + 7 <= inject_Z ((octave2 - 4) * 7))%Q
                 \/ (inject_Z ((octave1 - 4) * 7) = inject_Z ((octave2 - 4) * 7)
                     /\ Js.indexOf NOTE_NAMES_ABC note1 < Js.indexOf NOTE_NAMES_ABC note2)%Z).
  { destruct Ho as [Hlt | [-> Hidx]]; [left; now apply offset_step | right; now split]. }
  clear Ho.
  remember (inject_Z ((octave1 - 4) * 7)) as a1 eqn:E1.
  remember (inject_Z ((octave2 - 4) * 7)) as a2 eqn:E2.
  clear E1 E2. simpl in H1, H2.
  repeat (destruct H1 as [<- | H1]; [|]); try contradiction;
    repeat (destruct H2 as [<- | H2]; [|]); try contradiction;
    repeat match goal with
           | |- context [Js.indexOf NOTE_NAMES_ABC ?s] =>
               let v := eval vm_compute in (Js.indexOf NOTE_NAMES_ABC s) in
               change (Js.indexOf NOTE_NAMES_ABC s) with v
           end;
    repeat match goal with
           | |- context [Js.index notePositions ?k] =>
               let v := eval vm_compute in (Js.index notePositions k) in
               change (Js.index notePositions k) with v
           end;
    cbn [Z.eqb Pos.eqb];
    (destruct Hoff as [Hstep | [-> Hidx]];
     [ Lqa.lra | vm_compute in Hidx; try discriminate Hidx; Lqa.lra ]).
Qed.

Lemma getStaffPosition_monotone_witness :
  In "B"%string NOTE_NAMES_ABC /\ In "C"%string NOTE_NAMES_ABC
  /\ (4 < 5)%Z
  /\ (getStaffPosition "B" 4 < getStaffPosition "C" 5)%Q.
Proof.
  assert (H1 : In "B"%string NOTE_NAMES_ABC) by (simpl; tauto).
  assert (H2 : In "C"%string NOTE_NAMES_ABC) by (simpl; tauto).
  assert (Ho : (4 < 5)%Z) by lia.
  split; [exact H1|]. split; [exact H2|]. split; [exact Ho|].
  exact (getStaffPosition_monotone "B" "C" 4 5 H1 H2 (or_introl Ho)).
Defined.

Local Open Scope float_scope.

(** The confidence [createPitchPoint] computes from a cents value. *)
Definition confidenceOf (c : float) : float :=
  Math_max 0 (Math_min 1 (1 - Math_abs c / 50)).

(** Between 0 and 1, what the formula gives before the clamp, and 1 at 0
    cents only. *)
Definition confidenceInRange (c : float) : bool :=
  (0 <=? confidenceOf c) && (confidenceOf c <=? 1)
  && PrimFloat.Leibniz.eqb (confidenceOf c) (1 - Math_abs c / 50)
  && implb (confidenceOf c =? 1) (c =? 0).

Lemma confidenceOf_cents (s : float) :
  is_finite s = true -> confidenceInRange (centsOf s) = true.
Proof.
  intros Hs. destruct (proj1 (centsOf_range s) Hs) as (n & Hn & [-> | ->]).
  - assert (Hall : forallb (fun k => confidenceInRange (of_Z k)) (zrange (-50) 101)
                   = true) by (vm_compute; reflexivity).
    rewrite forallb_forall in Hall. apply Hall, in_zrange. lia.
  - reflexivity.
Qed.

Section WithMath.
Context {M : Math}.

(** X20. The clamp of [createPitchPoint] never bites: whenever the semitone
    count of the frequency is a finite number, the confidence is exactly
    [1 - |cents| / 50], a number between 0 and 1, and it is 1 only at 0
    cents; when the count is infinite or NaN, the confidence is NaN. *)
Theorem createPitchPoint_confidence
        (frequency standardPitch timestamp : float) :
  let s := semitonesFromA4 frequency standardPitch in
  let p := createPitchPoint frequency standardPitch timestamp in
  (is_finite s = true ->
   PitchPoint.confidence p = 1 - Math_abs (PitchPoint.cents p) / 50
   /\ (0 <=? PitchPoint.confidence p) = true
   /\ (PitchPoint.confidence p <=? 1) = true
   /\ ((PitchPoint.confidence p =? 1) = true -> (PitchPoint.cents p =? 0) = true))
  /\ (is_finite s = false -> PitchPoint.confidence p = nan).
Proof.
  cbv zeta. unfold createPitchPoint. cbv zeta.
  cbn [PitchPoint.confidence PitchPoint.cents].
  rewrite cents_frequencyToNote.
  fold (confidenceOf (centsOf (semitonesFromA4 frequency standardPitch))).
  split.
  - intros Hs. pose proof (confidenceOf_cents _ Hs) as H.
    unfold confidenceInRange in H.
    apply andb_prop in H. destruct H as [H H4].
    apply andb_prop in H. destruct H as [H H3].
    apply andb_prop in H. destruct H as [H1 H2].
    apply FloatAxioms.Leibniz.eqb_spec in H3.
    repeat split; try assumption.
    intros H5. rewrite H5 in H4. exact H4.
  - intros Hs. rewrite (proj2 (centsOf_range _) Hs). reflexivity.
Qed.

End WithMath.

Lemma createPitchPoint_confidence_witness :
  is_finite (@semitonesFromA4 SeriesMath.seriesMath 445 440) = true
  /\ PitchPoint.confidence (@createPitchPoint SeriesMath.seriesMath 445 440 0) = 0.6.
Proof.
  assert (Hs : is_finite (@semitonesFromA4 SeriesMath.seriesMath 445 440) = true)
    by (vm_compute; reflexivity).
  split; [exact Hs|].
  rewrite (proj1 (proj1 (@createPitchPoint_confidence SeriesMath.seriesMath 445 440 0) Hs)).
  vm_compute. reflexivity.
Defined.

(** *** Smoothing *)

Definition steadyPoint (t : float) : PitchPoint.PitchPoint :=
  {| PitchPoint.timestamp := t; PitchPoint.frequency := 440;
     PitchPoint.note := Some "A"%string; PitchPoint.cents := 0;
     PitchPoint.confidence := 1; PitchPoint.octave := 4 |}.

Lemma nth_error_lookup {A : Type} (l : list A) (i : nat) : nth_error l i = l !! i.
Proof.
  revert i. induction l as [|a l IH]; intros [|i]; simpl; try reflexivity.
  apply IH.
Qed.

(** X22. Past the short-input case, a smoothed point does not keep the time
    stamp of the point it replaces: its time stamp is the clock at the time
    of smoothing, and its note, octave and cents are read with the old time
    stamp in the place of the standard pitch. *)
Theorem smoothPitchData_timestamps
        {M : Math} (pitchPoints : list PitchPoint.PitchPoint) (windowSize : nat)
        (clock : nat -> float) (i : nat) (p : PitchPoint.PitchPoint) :
  (windowSize < List.length pitchPoints)%nat ->
  nth_error pitchPoints i = Some p ->
  exists q,
    nth_error (smoothPitchData pitchPoints windowSize clock) i = Some q
    /\ PitchPoint.timestamp q = clock i
    /\ PitchPoint.note q
       = note (frequencyToNote (PitchPoint.frequency q) (PitchPoint.timestamp p))
    /\ PitchPoint.octave q
       = octave (frequencyToNote (PitchPoint.frequency q) (PitchPoint.timestamp p))
    /\ PitchPoint.cents q
       = cents (frequencyToNote (PitchPoint.frequency q) (PitchPoint.timestamp p)).
Proof.
  intros Hlen Hp. unfold smoothPitchData.
  destruct (Nat.leb_spec (List.length pitchPoints) windowSize) as [Hle | _]; [lia|].
  eexists. split.
  - rewrite nth_error_lookup, list_lookup_imap, <- nth_error_lookup, Hp. reflexivity.
  - unfold smoothedPoint. cbv zeta. unfold createPitchPoint. cbv zeta.
    cbn [PitchPoint.timestamp PitchPoint.note PitchPoint.octave PitchPoint.cents
         PitchPoint.frequency].
    repeat split.
Qed.

Lemma smoothPitchData_timestamps_witness :
  (1 < List.length [steadyPoint 1; steadyPoint 2; steadyPoint 3])%nat
  /\ nth_error [steadyPoint 1; steadyPoint 2; steadyPoint 3] 1 = Some (steadyPoint 2)
  /\ exists q,
      nth_error (@smoothPitchData SeriesMath.seriesMath
                   [steadyPoint 1; steadyPoint 2; steadyPoint 3] 1
                   (fun _ => 99)) 1 = Some q
      /\ PitchPoint.timestamp q = 99.
Proof.
  assert (Hl : (1 < List.length [steadyPoint 1; steadyPoint 2; steadyPoint 3])%nat)
    by (simpl; lia).
  assert (Hp : nth_error [steadyPoint 1; steadyPoint 2; steadyPoint 3] 1
               = Some (steadyPoint 2)) by reflexivity.
  split; [exact Hl|]. split; [exact Hp|].
  destruct (@smoothPitchData_timestamps SeriesMath.seriesMath
              _ 1 (fun _ => 99) 1 (steadyPoint 2) Hl Hp)
    as (q & Hq & Ht & _).
  exists q. split; [exact Hq | exact Ht].
Defined.

(** Three points at 493.88 Hz, smoothed over a window of three: the mean of
    the window kept for the first point is [((0 + f) + f + f) / 3], which
    binary64 rounds to another number than [f]. *)
Example smoothing_moves_a_steady_tone :
  avgFrequency
    [ {| PitchPoint.timestamp := 1; PitchPoint.frequency := 493.88;
         PitchPoint.note := Some "B"%string; PitchPoint.cents := 0;
         PitchPoint.confidence := 1; PitchPoint.octave := 4 |};
      {| PitchPoint.timestamp := 2; PitchPoint.frequency := 493.88;
         PitchPoint.note := Some "B"%string; PitchPoint.cents := 0;
         PitchPoint.confidence := 1; PitchPoint.octave := 4 |};
      {| PitchPoint.timestamp := 3; PitchPoint.frequency := 493.88;
         PitchPoint.note := Some "B"%string; PitchPoint.cents := 0;
         PitchPoint.confidence := 1; PitchPoint.octave := 4 |} ]
  = 493.87999999999994.
Proof. vm_compute. reflexivity. Qed.

End PitchPointSpec.

(** ** How large the note buffer gets *)
Module NoteBufferBounds.
Import StaffAnalyzerWidget StaffAnalyzerWidgetSpec.
Local Open Scope Q_scope.

(** The pitch events of a spaced list that all come 100 ms or more after
    [lo] and not after [hi] are at most [(hi - lo) / 100]. *)
Lemma spaced_count_from (hi : Z) (notes : list NoteHistoryItem) :
  forall lo : Z,
    spaced notes -> notAfter hi notes ->
    Forall (fun b => isPitch b = true -> (lo + 100 <= timestamp b)%Z) notes ->
    (lo <= hi)%Z ->
    (100 * Z.of_nat (List.length (List.filter isPitch notes)) <= hi - lo)%Z.
Proof.
  induction notes as [|y rest IH]; intros lo Hs Hb Hlo Hle; [simpl; lia|].
  destruct Hs as [Hy Hs].
  apply List.Forall_cons_iff in Hb as [Hby Hb].
  apply List.Forall_cons_iff in Hlo as [Hloy Hlo].
  simpl. destruct (isPitch y) eqn:Ey.
  - specialize (Hby eq_refl). specialize (Hloy eq_refl).
    assert (IH' : (100 * Z.of_nat (List.length (List.filter isPitch rest))
                   <= hi - timestamp y)%Z).
    { apply IH; try assumption.
      eapply List.Forall_impl; [|exact Hy]. cbn beta.
      intros b Hab Hpb. apply Hab; [exact Ey | exact Hpb]. }
    cbn [List.length]. lia.
  - now apply IH.
Qed.

(** From the oldest pitch event on. *)
Lemma spaced_count (hi : Z) (notes : list NoteHistoryItem) :
  spaced notes -> notAfter hi notes ->
  match List.filter isPitch notes with
  | [] => True
  | oldest :: others =>
      (100 * Z.of_nat (List.length others) <= hi - timestamp oldest)%Z
  end.
Proof.
  induction notes as [|x rest IH]; intros Hs Hb; [exact I|].
  destruct Hs as [Hx Hs].
  apply List.Forall_cons_iff in Hb as [Hbx Hb].
  simpl. destruct (isPitch x) eqn:Ex; [|now apply IH].
  specialize (Hbx eq_refl).
  apply spaced_count_from; try assumption.
  eapply List.Forall_impl; [|exact Hx]. cbn beta.
  intros b Hab Hpb. apply Hab; [exact Ex | exact Hpb].
Qed.

Lemma filter_head_In {A : Type} (f : A -> bool) (l : list A) (a : A) (rest : list A) :
  List.filter f l = a :: rest -> In a l.
Proof.
  intros H. assert (Hin : In a (List.filter f l)) by (rewrite H; left; reflexivity).
  apply List.filter_In in Hin. tauto.
Qed.

Section Bounds.

Variable getNote : Q -> string.
Variable settings : Settings.

(** X24. The throttle bounds the buffer: in a run without sample notes, right
    after a frame that cleans up at a time [now] not before the last
    accepted observation, the buffer holds [k] pitch events with
    [100 (k - 1) < timeWindow * 1000]: at most ten per second of window. *)
Theorem pitch_events_bounded (start : Z) (events : list Event) (now : Z) :
  forallb (fun ev => negb (isTestNote ev)) events = true ->
  0 < timeWindow settings ->
  (now - lastCleanupTime (run getNote settings (initialState start) events) > 500)%Z ->
  (lastNoteTimeRef (run getNote settings (initialState start) events) <= now)%Z ->
  inject_Z
    (100 * (Z.of_nat
              (List.length
                 (List.filter isPitch
                    (latestNotes
                       (animate (timeWindow settings) now
                          (run getNote settings (initialState start) events)))))
            - 1))
  < timeWindow settings * 1000.
Proof.
  intros Hev Htw Hgate Hnow.
  set (st := run getNote settings (initialState start) events) in *.
  destruct (run_keeps getNote settings events (initialState start) Hev
              (throttled_initial start)) as [Hs Hb].
  fold st in Hs, Hb.
  unfold animate. destruct (Z.gtb_spec (now - lastCleanupTime st) 500); [|lia].
  cbn [latestNotes]. rewrite cleanup_filter.
  set (keep := fun note : NoteHistoryItem =>
                 ltb (inject_Z (now - timestamp note)) (timeWindow settings * 1000)).
  pose proof (spaced_count (lastNoteTimeRef st) (List.filter keep (latestNotes st))
                (spaced_filter keep _ Hs) (Forall_filter_keep _ keep _ Hb)) as Hcount.
  destruct (List.filter isPitch (List.filter keep (latestNotes st)))
    as [|oldest others] eqn:E.
  - simpl. unfold Qlt. simpl. apply Qlt_alt in Htw. unfold Qlt in *.
    assert (H0 : (0 < Qnum (timeWindow settings))%Z).
    { unfold Qlt in Htw. simpl in Htw. lia. }
    nia.
  - apply filter_head_In in E. apply List.filter_In in E as [_ Hkeep].
    subst keep. cbn beta in Hkeep. unfold ltb in Hkeep.
    apply negb_true_iff in Hkeep.
    assert (Hage : inject_Z (now - timestamp oldest) < timeWindow settings * 1000).
    { apply Qnot_le_lt. intros Hle. apply Qle_bool_iff in Hle. congruence. }
    eapply Qle_lt_trans; [|exact Hage].
    rewrite <- Zle_Qle. cbn [List.length]. lia.
Qed.

(** X25. The buffer size of the settings binds on ticks only: after an
    accepted tick the buffer holds at most [bufferSize] events, while an
    accepted pitch observation makes the buffer one longer whatever
    [bufferSize] is. *)
Theorem bufferSize_binds_on_ticks (st : WidgetState) :
  (0 < bufferSize settings)%Z ->
  (forall beat now,
      (0 < beat)%Z -> beat <> previousBeatRef st ->
      (50 <= now - lastTickTimeRef st)%Z ->
      (Z.of_nat (List.length (latestNotes (tickEffect settings true beat now st)))
       <= bufferSize settings)%Z)
  /\ (forall f clarity now,
         (50 < f)%Q -> (100 <= now - lastNoteTimeRef st)%Z ->
         getNote f <> ""%string ->
         List.length (latestNotes (noteEffect getNote settings (Some f) clarity now st))
         = S (List.length (latestNotes st))).
Proof.
  intros Hsize. split.
  - intros beat now Hbeat Hnew Htick. unfold tickEffect.
    destruct (Z.gtb_spec beat 0); [|lia].
    destruct (Z.eqb_spec beat (previousBeatRef st)); [contradiction|].
    destruct (Z.geb_spec (now - lastTickTimeRef st) 50); [|lia].
    cbn [andb negb latestNotes]. unfold Js.slice_from.
    destruct (Z.ltb_spec (- bufferSize settings) 0); [|lia].
    rewrite List.length_skipn, List.length_app. simpl List.length. lia.
  - intros f clarity now Hf Hnow Hname. unfold noteEffect.
    assert (Hnz : Qeq_bool f 0 = false).
    { destruct (Qeq_bool f 0) eqn:E; [|reflexivity].
      apply Qeq_bool_iff in E. rewrite E in Hf. discriminate Hf. }
    assert (Hgt : ltb 50 f = true).
    { unfold ltb. apply negb_true_iff. destruct (Qle_bool f 50) eqn:E; [|reflexivity].
      apply Qle_bool_iff in E. exfalso. apply (Qlt_not_le _ _ Hf E). }
    rewrite Hnz, Hgt. cbn [negb andb].
    destruct (Z.ltb_spec (now - lastNoteTimeRef st) 100); [lia|].
    destruct (getNote f) eqn:En; [congruence|].
    cbn [nonEmpty latestNotes]. rewrite List.length_app. simpl. lia.
Qed.

End Bounds.

Lemma pitch_events_bounded_witness :
  forallb (fun ev => negb (isTestNote ev)) sampleEvents = true
  /\ 0 < timeWindow noSettings
  /\ (2000 - lastCleanupTime
               (run (fun _ => "A4"%string) noSettings (initialState 0) sampleEvents)
      > 500)%Z
  /\ (lastNoteTimeRef
        (run (fun _ => "A4"%string) noSettings (initialState 0) sampleEvents)
      <= 2000)%Z
  /\ inject_Z
       (100 * (Z.of_nat
                 (List.length
                    (List.filter isPitch
                       (latestNotes
                          (animate (timeWindow noSettings) 2000
                             (run (fun _ => "A4"%string) noSettings (initialState 0)
                                  sampleEvents)))))
               - 1))
     < timeWindow noSettings * 1000.
Proof.
  assert (H1 : forallb (fun ev => negb (isTestNote ev)) sampleEvents = true)
    by reflexivity.
  assert (H2 : 0 < timeWindow noSettings) by reflexivity.
  assert (H3 : (2000 - lastCleanupTime
                  (run (fun _ => "A4"%string) noSettings (initialState 0) sampleEvents)
                > 500)%Z) by (vm_compute; reflexivity).
  assert (H4 : (lastNoteTimeRef
                  (run (fun _ => "A4"%string) noSettings (initialState 0) sampleEvents)
                <= 2000)%Z) by (vm_compute; discriminate).
  split; [exact H1|]. split; [exact H2|]. split; [exact H3|]. split; [exact H4|].
  exact (pitch_events_bounded (fun _ => "A4"%string) noSettings 0 sampleEvents 2000
           H1 H2 H3 H4).
Defined.

Lemma bufferSize_binds_on_ticks_witness :
  (0 < bufferSize noSettings)%Z
  /\ (Z.of_nat (List.length
                  (latestNotes (tickEffect noSettings true 1 1000 (initialState 0))))
      <= bufferSize noSettings)%Z.
Proof.
  assert (H : (0 < bufferSize noSettings)%Z) by reflexivity.
  split; [exact H|].
  exact (proj1 (bufferSize_binds_on_ticks (fun _ => "A4"%string) noSettings
                  (initialState 0) H)
           1%Z 1000%Z ltac:(lia) ltac:(simpl; lia) ltac:(simpl; lia)).
Defined.

End NoteBufferBounds.

(** ** Eviction and the left edge *)
Module EvictionAtEdge.
Import StaffAnalyzerWidget StaffAnalyzerWidgetSpec.
Local Open Scope Q_scope.

Lemma kept_iff (timeWindow : Q) (now : Z) (prev : list NoteHistoryItem)
      (item : NoteHistoryItem) :
  In item (cleanup timeWindow now prev)
  <-> In item prev /\ inject_Z (now - timestamp item) < timeWindow * 1000.
Proof.
  rewrite cleanup_filter, List.filter_In. unfold ltb.
  rewrite negb_true_iff. split; intros [Hin H]; (split; [exact Hin|]).
  - apply Qnot_le_lt. intros Hle. apply Qle_bool_iff in Hle. congruence.
  - destruct (Qle_bool (timeWindow * 1000) (inject_Z (now - timestamp item))) eqn:E;
      [|reflexivity].
    apply Qle_bool_iff in E. exfalso. apply (Qlt_not_le _ _ H E).
Qed.

(** X26. Eviction only takes events that have reached the left edge: under a
    positive time window, every event the cleanup keeps is drawn strictly
    right of the left edge at that moment, and every event it removes is
    drawn at the left edge. *)
Theorem eviction_at_left_edge (timeWindow : Q) (now : Z)
        (prev : list NoteHistoryItem) (item : NoteHistoryItem) :
  0 < timeWindow -> In item prev ->
  (In item (cleanup timeWindow now prev) ->
   10 < getNoteLeft timeWindow (timestamp item) now)
  /\ (~ In item (cleanup timeWindow now prev) ->
      getNoteLeft timeWindow (timestamp item) now == 10).
Proof.
  intros Htw Hin.
  assert (Hmax : 0 < timeWindow * 1000) by Lqa.lra.
  unfold getNoteLeft. cbv zeta.
  set (age := inject_Z (now - timestamp item)).
  split.
  - intros Hkept. apply kept_iff in Hkept as [_ Hage]. fold age in Hage.
    assert (Hp : age / (timeWindow * 1000) < 1).
    { apply Qlt_shift_div_r; [exact Hmax | Lqa.lra]. }
    apply Q.max_lt_iff. right. apply Q.min_glb_lt; [reflexivity | Lqa.lra].
  - intros Hgone.
    assert (Hage : timeWindow * 1000 <= age).
    { apply Qnot_lt_le. intros Hlt. apply Hgone, kept_iff. split; assumption. }
    assert (Hp : 1 <= age / (timeWindow * 1000)).
    { apply Qle_shift_div_l; [exact Hmax | Lqa.lra]. }
    apply Q.max_l. eapply Qle_trans; [apply Q.le_min_r | Lqa.lra].
Qed.

Lemma eviction_at_left_edge_witness :
  0 < 10
  /\ In (newTick 1000) [newTick 1000; newTick 9000]
  /\ getNoteLeft 10 (timestamp (newTick 1000)) 11000 == 10.
Proof.
  assert (Htw : 0 < 10) by reflexivity.
  assert (Hin : In (newTick 1000) [newTick 1000; newTick 9000]) by (left; reflexivity).
  split; [exact Htw|]. split; [exact Hin|].
  apply (proj2 (eviction_at_left_edge 10 11000 [newTick 1000; newTick 9000]
                  (newTick 1000) Htw Hin)).
  vm_compute. intros [H | H]; [discriminate H | exact H].
Defined.

End EvictionAtEdge.
